(** * regex-vis: the hand-written regular-expression literal parser

    A shallow embedding of [src/parser/parse_new.ts] (class [Parser] and the
    exported [parse]) and the properties its specification states about it.

    Conventions of the embedding.
    - A JavaScript string is a list of code units, [text]; the model covers
      code units below 256 ([ascii]).  [s[i]] is list lookup, [None] being
      JavaScript's [undefined].
    - The parser object is the record [Parser]; its methods are computations
      in a state monad [M] over it whose outcomes are a value, an uncaught
      [TypeError], or non-termination of the [do ... while] loop.
    - Node objects are shared between the tree, [this.parent] and [this.prev]
      and are mutated in place, so they live in a heap addressed by [addr];
      the value handed back by [parse] is the tree read off that heap.
    - [new RegExp(body, flags)] and [nanoid()] are external; they are the
      section variables [RegExp] and [nanoid]. *)

From Stdlib Require Import Ascii String NArith ZArith DecimalString Lia.
From stdpp Require Import base option list strings.

#[local] Set Warnings "-register-all".

Local Open Scope string_scope.
Local Open Scope list_scope.

Abbreviation text := (list ascii).

(** String literals are written [js "..."]. *)
Definition js (s : string) : text := list_ascii_of_string s.

(* ===================================================================== *)
(** ** The syntax tree *)

(** Modelled from the spec: the module [./ast] (types [AST.Quantifier],
    [AST.Node], [AST.Regex], [AST.RegexError], [AST.FlagKind]) is imported
    by the parser but is not part of the sources; the shapes below follow
    section 3 of the specification and the object literals the parser
    builds. *)
Inductive QuantifierKind := q_optional | q_star | q_plus | q_custom.

(** The numbers a quantifier holds: a JavaScript number (a double) that is
    a non-negative integer, or [Infinity]. *)
Inductive Bound := Fin (n : N) | Infinity.

Record Quantifier := mkQuantifier {
  q_kind : QuantifierKind;
  q_min : Bound;
  q_max : Bound;
  q_greedy : bool
}.

Inductive FlagKind :=
  hasIndices | global | ignoreCase | multiline | dotAll | unicode | sticky.

(** A flag node [{ kind: flagDict[flag] }]; [None] is a missing table entry. *)
Record Flag := mkFlag { f_kind : option FlagKind }.

(** [{ kind: "capturing", name }], [{ kind: "nonCapturing" }] and
    [{ kind: "namedCapturing", name }]. *)
Inductive GroupKind :=
| capturing (name : string)
| nonCapturing
| namedCapturing (name : string).

(** The tree the caller receives. *)
Inductive Node :=
| Character (value : string) (quantifier : option Quantifier)
| Group (id : string) (kind : GroupKind) (children : list Node)
        (quantifier : option Quantifier)
| Choice (branches : list (list Node))
| LookAroundAssertion (children : list Node).

Record Regex := mkRegex { body : list Node; flags : list Flag }.

(** What [parse] returns: [AST.Regex | AST.RegexError]. *)
Inductive Result :=
| ROk (ast : Regex)
| RError (message : string).

(** Node objects while the parse runs: children are references. *)
Abbreviation addr := nat.

Inductive obj :=
| character_obj (value : string) (quantifier : option Quantifier)
| group_obj (id : string) (kind : GroupKind) (children : list addr)
            (quantifier : option Quantifier)
| choice_obj (branches : list (list addr))
| lookAround_obj (children : list addr).

(** [this.parent]: the root [this.ast] or a node. *)
Inductive ref := root_ref | node_ref (a : addr).

(** Reading the tree off the heap, to depth [d]. *)
Fixpoint reify (d : nat) (h : list obj) (a : addr) : list Node :=
  match d with
  | O => []
  | S d' =>
    match h !! a with
    | None => []
    | Some (character_obj v q) => [Character v q]
    | Some (group_obj i k cs q) => [Group i k (flat_map (reify d' h) cs) q]
    | Some (choice_obj bs) => [Choice (map (flat_map (reify d' h)) bs)]
    | Some (lookAround_obj cs) =>
        [LookAroundAssertion (flat_map (reify d' h) cs)]
    end
  end.

(* ===================================================================== *)
(** ** Characters and strings *)

Definition is_char (c : ascii) (o : option ascii) : bool :=
  match o with Some c' => Ascii.eqb c' c | None => false end.

(** [\d] without the unicode flag: [0-9]. *)
Definition is_digit (c : ascii) : bool :=
  let n := N_of_ascii c in (48 <=? n)%N && (n <=? 57)%N.

(** White space and line terminators removed by [String.prototype.trim],
    among the code units below 256: TAB, LF, VT, FF, CR, SP, NBSP. *)
Definition is_space (c : ascii) : bool :=
  let n := N_of_ascii c in
  ((9 <=? n)%N && (n <=? 13)%N) || (n =? 32)%N || (n =? 160)%N.

(** Line terminators, which [.] does not match: LF and CR. *)
Definition is_line_terminator (c : ascii) : bool :=
  let n := N_of_ascii c in (n =? 10)%N || (n =? 13)%N.

Fixpoint trimStart (s : text) : text :=
  match s with
  | c :: s' => if is_space c then trimStart s' else s
  | [] => []
  end.

Definition trim (s : text) : text := rev (trimStart (rev (trimStart s))).

(** [s.indexOf(c, from)], [None] for [-1]. *)
Fixpoint indexOf_from (c : ascii) (from : nat) (s : text) : option nat :=
  match s with
  | [] => None
  | c' :: s' =>
    match from with
    | O => if Ascii.eqb c' c then Some 0 else S <$> indexOf_from c 0 s'
    | S from' => S <$> indexOf_from c from' s'
    end
  end.

Definition indexOf (c : ascii) (s : text) : option nat := indexOf_from c 0 s.

(** [s.slice(from, to)] and [s.slice(from)] for indices within range. *)
Definition slice (from to : nat) (s : text) : text := take (to - from) (drop from s).

(** The integer that a run of decimal digits denotes. *)
Definition decimal_value (s : text) : N :=
  fold_left (fun acc c => (10 * acc + (N_of_ascii c - 48))%N) s 0%N.

(** The double nearest to a non-negative integer, ties going to the even
    significand: integers of at most 53 bits are kept, longer ones are
    rounded to 53 significant bits, and what reaches [2^1024] is
    [Infinity]. *)
Definition to_double (v : N) : Bound :=
  let bits := N.size v in
  if (bits <=? 53)%N then Fin v
  else
    let e := (bits - 53)%N in
    let q := N.shiftr v e in
    let r := N.land v (N.ones e) in
    let half := N.shiftl 1 (e - 1) in
    let q' := if (half <? r)%N || ((r =? half)%N && N.odd q)
              then (q + 1)%N else q in
    let d := N.shiftl q' e in
    if (1024 <? N.size d)%N then Infinity else Fin d.

(** [parseInt] on a run of decimal digits: the number value of the integer
    the digits denote (the correctly rounded double, as V8 computes it). *)
Definition parseInt (s : text) : Bound := to_double (decimal_value s).

(** [n + ""] for a non-negative integer. *)
Definition number_to_string (n : nat) : string :=
  NilZero.string_of_uint (Nat.to_uint n).

(** [startsWith]. *)
Fixpoint starts_with (pre s : text) : bool :=
  match pre, s with
  | [], _ => true
  | c :: pre', c' :: s' => Ascii.eqb c' c && starts_with pre' s'
  | _ :: _, [] => false
  end.

(** The longest prefix of [s] made of characters satisfying [f]. *)
Fixpoint span (f : ascii -> bool) (s : text) : text :=
  match s with
  | c :: s' => if f c then c :: span f s' else []
  | [] => []
  end.

(** The regular expressions the parser builds for its first argument of
    [eat]: ["\\d+"] is [digits]; ["\\?:"], ["\\?<"] and [","] denote the
    literal texts [?:], [?<] and [,]. *)
Inductive StartPoint := digits | literal (s : text).

(** [s.match(new RegExp("^" + startPoint))]: the matched text. *)
Definition match_start (sp : StartPoint) (s : text) : option text :=
  match sp with
  | digits => match span is_digit s with [] => None | d => Some d end
  | literal l => if starts_with l s then Some l else None
  end.

(** The greedy "any characters, then [endPoint]": the largest [k' <= k]
    such that [endPoint] occurs at offset [k'] of [s]. *)
Fixpoint last_occurrence (endPoint s : text) (k : nat) : option nat :=
  if starts_with endPoint (drop k s) then Some k
  else match k with
       | O => None
       | S k' => last_occurrence endPoint s k'
       end.

(** Group 1 of a match of "dot star in a group, then [endPoint]" anchored
    at the start of [s]: the dot runs over characters other than line
    terminators, the star takes as many as it can and gives back as few as
    it must. *)
Definition match_upto (endPoint s : text) : option text :=
  let line := span (fun c => negb (is_line_terminator c)) s in
  (fun k => take k s) <$> last_occurrence endPoint s (length line).

(** JavaScript truthiness of [string | false]. *)
Definition truthy (r : option text) : bool :=
  match r with Some (_ :: _) => true | _ => false end.

(* ===================================================================== *)
(** ** The flag table *)

(** [flagDict]. *)
Definition flagDict (flag : ascii) : option FlagKind :=
  if Ascii.eqb flag "d"%char then Some hasIndices
  else if Ascii.eqb flag "g"%char then Some global
  else if Ascii.eqb flag "i"%char then Some ignoreCase
  else if Ascii.eqb flag "m"%char then Some multiline
  else if Ascii.eqb flag "s"%char then Some dotAll
  else if Ascii.eqb flag "u"%char then Some unicode
  else if Ascii.eqb flag "y"%char then Some sticky
  else None.

(** [/[gimsuy]/.test(c)] on a one-character string. *)
Definition flag_test (c : ascii) : bool :=
  existsb (Ascii.eqb c) (js "gimsuy").

(** [Set.prototype.add] on an insertion-ordered set. *)
Definition set_add (c : ascii) (s : list ascii) : list ascii :=
  if existsb (Ascii.eqb c) s then s else s ++ [c].

(* ===================================================================== *)
(** ** The parser state and its monad *)

Record Parser := mkParser {
  regex : text;
  message : string;
  index : nat;
  ast_body : list addr;
  ast_flags : list Flag;
  heap : list obj;
  parent : option ref;
  prev : option addr;
  groupIndex : nat;
  flagSet : list ascii;
  nanoid_calls : nat
}.

Definition set_message (m : string) (p : Parser) : Parser :=
  mkParser (regex p) m (index p) (ast_body p) (ast_flags p) (heap p)
           (parent p) (prev p) (groupIndex p) (flagSet p) (nanoid_calls p).
Definition set_index (i : nat) (p : Parser) : Parser :=
  mkParser (regex p) (message p) i (ast_body p) (ast_flags p) (heap p)
           (parent p) (prev p) (groupIndex p) (flagSet p) (nanoid_calls p).
Definition set_ast_body (b : list addr) (p : Parser) : Parser :=
  mkParser (regex p) (message p) (index p) b (ast_flags p) (heap p)
           (parent p) (prev p) (groupIndex p) (flagSet p) (nanoid_calls p).
Definition set_ast_flags (f : list Flag) (p : Parser) : Parser :=
  mkParser (regex p) (message p) (index p) (ast_body p) f (heap p)
           (parent p) (prev p) (groupIndex p) (flagSet p) (nanoid_calls p).
Definition set_heap (h : list obj) (p : Parser) : Parser :=
  mkParser (regex p) (message p) (index p) (ast_body p) (ast_flags p) h
           (parent p) (prev p) (groupIndex p) (flagSet p) (nanoid_calls p).
Definition set_parent (r : option ref) (p : Parser) : Parser :=
  mkParser (regex p) (message p) (index p) (ast_body p) (ast_flags p) (heap p)
           r (prev p) (groupIndex p) (flagSet p) (nanoid_calls p).
Definition set_prev (a : option addr) (p : Parser) : Parser :=
  mkParser (regex p) (message p) (index p) (ast_body p) (ast_flags p) (heap p)
           (parent p) a (groupIndex p) (flagSet p) (nanoid_calls p).
Definition set_groupIndex (n : nat) (p : Parser) : Parser :=
  mkParser (regex p) (message p) (index p) (ast_body p) (ast_flags p) (heap p)
           (parent p) (prev p) n (flagSet p) (nanoid_calls p).
Definition set_flagSet (s : list ascii) (p : Parser) : Parser :=
  mkParser (regex p) (message p) (index p) (ast_body p) (ast_flags p) (heap p)
           (parent p) (prev p) (groupIndex p) s (nanoid_calls p).
Definition set_nanoid_calls (n : nat) (p : Parser) : Parser :=
  mkParser (regex p) (message p) (index p) (ast_body p) (ast_flags p) (heap p)
           (parent p) (prev p) (groupIndex p) (flagSet p) n.

(** How a call ends: with a value, with an uncaught [TypeError] (reading a
    property of [undefined]), or not at all. *)
Inductive outcome (A : Type) :=
| Val (a : A)
| TypeError
| Diverge.
Arguments Val {A} a.
Arguments TypeError {A}.
Arguments Diverge {A}.

Definition M (A : Type) : Type := Parser -> outcome (A * Parser).

Definition ret {A} (a : A) : M A := fun p => Val (a, p).

Definition bind {A B} (m : M A) (k : A -> M B) : M B :=
  fun p =>
    match m p with
    | Val (a, p') => k a p'
    | TypeError => TypeError
    | Diverge => Diverge
    end.

Definition reads {A} (f : Parser -> A) : M A := fun p => Val (f p, p).
Definition modify (f : Parser -> Parser) : M unit := fun p => Val (tt, f p).
Definition throw {A} : M A := fun _ => TypeError.
Definition diverge {A} : M A := fun _ => Diverge.

Declare Scope parser_scope.
Delimit Scope parser_scope with parser.
Notation "x <- m ;; k" := (bind m (fun x => k))
  (at level 100, m at next level, right associativity) : parser_scope.
Notation "m ;;; k" := (bind m (fun _ => k))
  (at level 100, right associativity) : parser_scope.
Local Open Scope parser_scope.

(** The constructor: [this.regex = regex.trim()], fields at their
    initialisers, [parent] and [prev] unassigned. *)
Definition new_Parser (regex : text) : Parser :=
  {| regex := trim regex; message := ""; index := 0;
     ast_body := []; ast_flags := []; heap := [];
     parent := None; prev := None; groupIndex := 1;
     flagSet := []; nanoid_calls := 0 |}.

(* ===================================================================== *)
(** ** The methods of [Parser] *)

Section Methods.

(** [new RegExp(body, flags)] either constructs an object ([None]) or
    throws a [SyntaxError] with a message ([Some message]). *)
Variable RegExp : text -> text -> option string.

(** The result of the [k]-th call of [nanoid()], counting from 0. *)
Variable nanoid : nat -> string.

(** The flag loop of [validate], from the character after the closing
    delimiter: [false] at the first letter the test rejects, the set grown
    by the letters before it. *)
Fixpoint validate_flags (rest : text) (set : list ascii) : bool * list ascii :=
  match rest with
  | [] => (true, set)
  | c :: rest' =>
    if negb (flag_test c) then (false, set)
    else validate_flags rest' (set_add c set)
  end.

(** [validate()].  The [try] block ends either at a [return false] or in
    the call of [RegExp]; only that call can throw, and [catch] turns its
    error into [this.message]. *)
Definition validate : M bool := fun p =>
  let start := indexOf "/" (regex p) in
  if negb (bool_decide (start = Some 0)) then
    Val (false, set_message "Invalid regular expression" p)
  else
    match indexOf_from "/" 1 (regex p) with
    | None => Val (false, set_message "Invalid regular expression" p)
    | Some end_ =>
      let '(ok, set) := validate_flags (drop (end_ + 1) (regex p)) (flagSet p) in
      let p := set_flagSet set p in
      if negb ok then
        Val (false, set_message "Invalid regular expression flags" p)
      else
        match RegExp (slice 1 end_ (regex p)) (drop (end_ + 1) (regex p)) with
        | Some error_message => Val (false, set_message error_message p)
        | None => Val (true, p)
        end
    end.

(** [advance(step = 1)]. *)
Definition advance (step : nat) : M bool := fun p =>
  if (Z.of_nat (index p) =? Z.of_nat (length (regex p)) - 1)%Z then
    Val (false, p)
  else
    Val (true, set_index (index p + step) p).

(** [cur(advance = 0)]. *)
Definition cur (advance : nat) (p : Parser) : option ascii :=
  regex p !! (index p + advance).

(** [eat(startPoint, endPoint = "", advance = 0)]; [None] is [false]. *)
Definition eat (startPoint : StartPoint) (endPoint : text) (advance : nat)
    (p : Parser) : option text :=
  let rest := drop (index p + advance) (regex p) in
  match endPoint with
  | [] => match_start startPoint rest
  | _ :: _ =>
    match match_start startPoint rest with
    | Some m => match_upto endPoint (drop (length m) rest)
    | None => None
    end
  end.

(** [this.prev.quantifier = quantifier], guarded by the test on
    [this.prev.type]; reading [type] of an unassigned [prev] throws. *)
Definition attach_quantifier (q : Quantifier) : M unit := fun p =>
  match prev p with
  | None => TypeError
  | Some a =>
    match heap p !! a with
    | Some (character_obj v _) =>
        Val (tt, set_heap (<[a := character_obj v (Some q)]> (heap p)) p)
    | Some (group_obj i k cs _) =>
        Val (tt, set_heap (<[a := group_obj i k cs (Some q)]> (heap p)) p)
    | Some _ => Val (tt, p)
    | None => TypeError
    end
  end.

Definition fixed (k : QuantifierKind) (lo : N) (hi : Bound) : Quantifier :=
  {| q_kind := k; q_min := Fin lo; q_max := hi; q_greedy := true |}.

(** [{ kind: "custom", min, max, greedy: true }]. *)
Definition custom (lo hi : Bound) : Quantifier :=
  {| q_kind := q_custom; q_min := lo; q_max := hi; q_greedy := true |}.

Definition lazy (q : Quantifier) : Quantifier :=
  {| q_kind := q_kind q; q_min := q_min q; q_max := q_max q; q_greedy := false |}.

(** The [switch] of [consumeQuantifier]: the quantifier read at the cursor,
    if any. *)
Definition read_quantifier : M (option Quantifier) :=
  c <- reads (cur 0) ;;
  if is_char "?" c then
    advance 1 ;;; ret (Some (fixed q_optional 0 (Fin 1)))
  else if is_char "*" c then
    advance 1 ;;; ret (Some (fixed q_star 0 Infinity))
  else if is_char "+" c then
    advance 1 ;;; ret (Some (fixed q_plus 1 Infinity))
  else if is_char "{" c then
    min <- reads (eat digits [] 1) ;;
    match min with
    | None | Some [] => ret None
    | Some min =>
      c1 <- reads (cur (length min + 1)) ;;
      if is_char "}" c1 then
        advance (length min + 2) ;;;
        ret (Some (custom (parseInt min) (parseInt min)))
      else
        comma <- reads (eat (literal (js ",")) [] (length min + 1)) ;;
        c2 <- reads (cur (length min + 2)) ;;
        if truthy comma && is_char "}" c2 then
          advance (length min + 3) ;;;
          ret (Some (custom (parseInt min) Infinity))
        else
          max <- reads (eat digits [] 1) ;;
          match max with
          | None | Some [] => ret None
          | Some max =>
            c3 <- reads (cur (length min + 1)) ;;
            if is_char "}" c3 then
              advance (length min + length max + 3) ;;;
              ret (Some (custom (parseInt min) (parseInt max)))
            else ret None
          end
    end
  else ret None.

(** [consumeQuantifier()]. *)
Definition consumeQuantifier : M bool :=
  quantifier <- read_quantifier ;;
  match quantifier with
  | Some q =>
    c <- reads (cur 0) ;;
    q <- (if is_char "?" c then advance 1 ;;; ret (lazy q) else ret q) ;;
    attach_quantifier q ;;;
    ret true
  | None => ret false
  end.

(** [appendChild(node)]. *)
Definition appendChild (node : addr) : M unit := fun p =>
  match parent p with
  | None => TypeError
  | Some root_ref => Val (tt, set_ast_body (ast_body p ++ [node]) p)
  | Some (node_ref a) =>
    match heap p !! a with
    | Some (group_obj i k cs q) =>
        Val (tt, set_heap (<[a := group_obj i k (cs ++ [node]) q]> (heap p)) p)
    | Some (lookAround_obj cs) =>
        Val (tt, set_heap (<[a := lookAround_obj (cs ++ [node])]> (heap p)) p)
    | Some (choice_obj bs) =>
      match last bs with
      | Some b =>
          Val (tt, set_heap
                     (<[a := choice_obj (<[length bs - 1 := b ++ [node]]> bs)]>
                        (heap p)) p)
      | None => TypeError
      end
    | Some (character_obj _ _) => Val (tt, p)
    | None => TypeError
    end
  end.

(** The head of [onGroup()]: the kind of the group opened at the cursor. *)
Definition read_group : M GroupKind :=
  nc <- reads (eat (literal (js "?:")) [] 0) ;;
  group <- (if truthy nc then
              advance 2 ;;; ret (Some nonCapturing)
            else
              name <- reads (eat (literal (js "?<")) (js ">") 0) ;;
              match name with
              | Some (c :: n) =>
                  advance (length (c :: n) + 3) ;;;
                  ret (Some (namedCapturing (string_of_list_ascii (c :: n))))
              | _ => ret None
              end) ;;
  match group with
  | Some g => ret g
  | None =>
    n <- reads groupIndex ;;
    modify (set_groupIndex (n + 1)) ;;;
    ret (capturing (number_to_string n))
  end.

(** The object literal of [onGroup()], allocated with a fresh id. *)
Definition new_group (g : GroupKind) : M addr := fun p =>
  let node := group_obj (nanoid (nanoid_calls p)) g [] None in
  Val (length (heap p),
       set_nanoid_calls (nanoid_calls p + 1) (set_heap (heap p ++ [node]) p)).

(** [onGroup()], with the recursive call of [consume] abstracted. *)
Definition onGroup (consume : ascii -> M unit) : M unit :=
  advance 1 ;;;
  group <- read_group ;;
  groupNode <- new_group group ;;
  appendChild groupNode ;;;
  consume ")"%char ;;;
  modify (set_prev (Some groupNode)).

(** [consume(endPoint)]: the [do ... while (this.advance())] loop, one
    unit of [fuel] per iteration. *)
Fixpoint consume (fuel : nat) (endPoint : ascii) : M unit :=
  match fuel with
  | O => diverge
  | S fuel' =>
    c <- reads (cur 0) ;;
    if is_char endPoint c then ret tt
    else
      (if is_char "{" c || is_char "?" c || is_char "*" c || is_char "+" c
       then consumeQuantifier ;;; ret tt
       else if is_char "(" c then onGroup (consume fuel')
       else ret tt) ;;;
      more <- advance 1 ;;
      if more then consume fuel' endPoint else ret tt
  end.

(** [onRegexBody()]. *)
Definition onRegexBody (fuel : nat) : M unit :=
  advance 1 ;;; consume fuel "/".

(** [onFlags()]. *)
Definition onFlags : M unit :=
  modify (fun p =>
    set_ast_flags
      (ast_flags p ++ map (fun flag => {| f_kind := flagDict flag |}) (flagSet p)) p).

(** [onRegex()]. *)
Definition onRegex (fuel : nat) : M unit :=
  modify (set_parent (Some root_ref)) ;;;
  onRegexBody fuel ;;;
  onFlags.

(** The tree [this.ast] as the caller sees it. *)
Definition ast (p : Parser) : Regex :=
  {| body := flat_map (reify (S (length (heap p))) (heap p)) (ast_body p);
     flags := ast_flags p |}.

(** [Parser.parse()]. *)
Definition Parser_parse (p : Parser) : outcome Result :=
  match validate p with
  | Val (false, p) => Val (RError (message p))
  | Val (true, p) =>
    match onRegex (length (regex p)) p with
    | Val (_, p) => Val (ROk (ast p))
    | TypeError => TypeError
    | Diverge => Diverge
    end
  | TypeError => TypeError
  | Diverge => Diverge
  end.

(** The exported [parse]. *)
Definition parse (regex : text) : outcome Result :=
  Parser_parse (new_Parser regex).

End Methods.

(* ===================================================================== *)
(** ** What the specification talks about *)

(** The capture names of the capturing groups of a tree, in the order of
    their opening parentheses (pre-order). *)
Fixpoint capture_names (t : Node) : list string :=
  match t with
  | Character _ _ => []
  | Group _ k cs _ =>
      match k with capturing n => [n] | _ => [] end ++ flat_map capture_names cs
  | Choice bs => flat_map (flat_map capture_names) bs
  | LookAroundAssertion cs => flat_map capture_names cs
  end.

(** The distinct elements of a list, each at its first occurrence. *)
Fixpoint first_occurrences (l : list ascii) : list ascii :=
  match l with
  | [] => []
  | c :: l' => c :: filter (fun c' => c' <> c) (first_occurrences l')
  end.

(** The tree with every group id blanked. *)
Fixpoint erase_ids (t : Node) : Node :=
  match t with
  | Character v q => Character v q
  | Group _ k cs q => Group "" k (map erase_ids cs) q
  | Choice bs => Choice (map (map erase_ids) bs)
  | LookAroundAssertion cs => LookAroundAssertion (map erase_ids cs)
  end.

Definition erase_result (r : outcome Result) : outcome Result :=
  match r with
  | Val (ROk t) => Val (ROk {| body := map erase_ids (body t); flags := flags t |})
  | r => r
  end.

(** A validation oracle that accepts everything and an id supply, for
    running the parser on concrete literals. *)
Definition accept_all : text -> text -> option string := fun _ _ => None.
Definition ids (k : nat) : string := number_to_string k.

(** The tree that section 8 of the specification gives for ["/ab+/gi"]. *)
Definition spec_ab_plus : Regex :=
  {| body := [Character "a" None;
              Character "b" (Some (fixed q_plus 1 Infinity))];
     flags := [mkFlag (Some global); mkFlag (Some ignoreCase)] |}.

(** ** Invariants of a run *)

(** A group object without children. *)
Definition is_leaf_group (o : obj) : bool :=
  match o with group_obj _ _ [] _ => true | _ => false end.

Definition capture_name (o : obj) : option string :=
  match o with group_obj _ (capturing n) _ _ => Some n | _ => None end.

(** The last character of a validated literal: the closing delimiter or a
    flag letter. *)
Definition safe_end (s : text) : bool :=
  match last s with
  | Some c => Ascii.eqb c "/" || flag_test c
  | None => false
  end.

(** The shape of the tree under construction: the parent is the root, the
    body lists every node allocated so far in order, each a childless
    group, and the capturing groups carry the numbers below [groupIndex]. *)
Record tree_inv (p : Parser) : Prop := {
  inv_parent : parent p = Some root_ref;
  inv_body : ast_body p = seq 0 (length (heap p));
  inv_leaves : Forall (fun o => is_leaf_group o = true) (heap p);
  inv_names : omap capture_name (heap p)
              = map number_to_string (seq 1 (groupIndex p - 1));
  inv_counter : 1 <= groupIndex p
}.

(** The cursor is on a character of a literal with a safe end. *)
Record cursor_inv (p : Parser) : Prop := {
  inv_index : index p < length (regex p);
  inv_end : safe_end (regex p) = true
}.

(** What a method leaves alone, and that the cursor never moves back. *)
Record frame (p p' : Parser) : Prop := {
  fr_regex : regex p' = regex p;
  fr_flagSet : flagSet p' = flagSet p;
  fr_flags : ast_flags p' = ast_flags p;
  fr_index : index p <= index p'
}.

(** The state with the ids of its nodes blanked. *)
Definition erase_obj (o : obj) : obj :=
  match o with
  | group_obj _ k cs q => group_obj "" k cs q
  | o => o
  end.

Definition erase_parser (p : Parser) : Parser :=
  set_nanoid_calls 0 (set_heap (map erase_obj (heap p)) p).

(** Two outcomes that agree up to ids. *)
Definition sim_outcome {A} (r r' : outcome (A * Parser)) : Prop :=
  match r, r' with
  | Val (a, p), Val (a', p') => a = a' /\ erase_parser p = erase_parser p'
  | TypeError, TypeError => True
  | Diverge, Diverge => True
  | _, _ => False
  end.

Definition sim {A} (m m' : M A) : Prop :=
  forall p p', erase_parser p = erase_parser p' -> sim_outcome (m p) (m' p').

(** What holds when a method of the body parse returns: it may throw, it
    does not run forever, and if it returns the invariants hold again. *)
Definition post {A} (p : Parser) (r : outcome (A * Parser)) : Prop :=
  match r with
  | Val (_, p') => tree_inv p' /\ cursor_inv p' /\ frame p p'
  | TypeError => True
  | Diverge => False
  end.

(** The node read off a childless group object. *)
Definition leaf_node (o : obj) : list Node :=
  match o with group_obj i k [] q => [Group i k [] q] | _ => [] end.

(** The flag letters of a literal: what follows its second delimiter. *)
Definition flag_letters (s : text) : text :=
  match indexOf_from "/" 1 s with
  | Some end_ => drop (end_ + 1) s
  | None => []
  end.

(** The text between the two delimiters. *)
Definition literal_body (s : text) : text :=
  match indexOf_from "/" 1 s with
  | Some end_ => slice 1 end_ s
  | None => []
  end.

(** ** Further notions *)

(** [Parser.parse] with the number of iterations granted to the loop of
    [consume] left open; [Parser_parse] grants the length of the literal. *)
Definition Parser_parse_fuel (RegExp : text -> text -> option string)
    (nanoid : nat -> string) (fuel : nat) (p : Parser) : outcome Result :=
  match validate RegExp p with
  | Val (false, p) => Val (RError (message p))
  | Val (true, p) =>
    match onRegex nanoid fuel p with
    | Val (_, p) => Val (ROk (ast p))
    | TypeError => TypeError
    | Diverge => Diverge
    end
  | TypeError => TypeError
  | Diverge => Diverge
  end.

Definition parse_fuel (RegExp : text -> text -> option string)
    (nanoid : nat -> string) (fuel : nat) (regex : text) : outcome Result :=
  Parser_parse_fuel RegExp nanoid fuel (new_Parser regex).

(** Partial correctness of a method: from a state satisfying [P], if it
    returns, the value and the state satisfy [Q]. *)
Definition hoare {A} (P : Parser -> Prop) (m : M A)
    (Q : A -> Parser -> Prop) : Prop :=
  forall p a p', P p -> m p = Val (a, p') -> Q a p'.

(** A property of the parser state that the cursor, the capture counter and
    [this.prev] do not bear on. *)
Record heap_property (I : Parser -> Prop) : Prop := {
  hp_index : forall i p, I p -> I (set_index i p);
  hp_groupIndex : forall n p, I p -> I (set_groupIndex n p);
  hp_prev : forall a p, I p -> I (set_prev a p);
  hp_parent : forall r p, I p -> I (set_parent r p);
  hp_flags : forall f p, I p -> I (set_ast_flags f p);
  hp_body : forall b p, I p -> I (set_ast_body b p)
}.

(** The bounds that go with each kind of quantifier: [?] is [0..1], [*] is
    [0..], [+] is [1..], and a custom one read from braces is [n..n] or
    [n..]. *)
Definition quantifier_ok (q : Quantifier) : bool :=
  match q_kind q, q_min q, q_max q with
  | q_optional, Fin n, Fin m => (n =? 0)%N && (m =? 1)%N
  | q_star, Fin n, Infinity => (n =? 0)%N
  | q_plus, Fin n, Infinity => (n =? 1)%N
  | q_custom, Fin n, Fin m => (m =? n)%N
  | q_custom, _, Infinity => true
  | _, _, _ => false
  end.

(** [min <= max]. *)
Definition bounds_ordered (q : Quantifier) : Prop :=
  match q_min q, q_max q with
  | Fin n, Fin m => (n <= m)%N
  | _, Infinity => True
  | Infinity, Fin _ => False
  end.

Definition obj_quantifier (o : obj) : option Quantifier :=
  match o with
  | character_obj _ q | group_obj _ _ _ q => q
  | _ => None
  end.

Definition obj_id (o : obj) : option string :=
  match o with group_obj i _ _ _ => Some i | _ => None end.

(** The quantifiers and the group ids of a tree, in pre-order. *)
Fixpoint quantifiers (t : Node) : list Quantifier :=
  match t with
  | Character _ q => option_list q
  | Group _ _ cs q => option_list q ++ flat_map quantifiers cs
  | Choice bs => flat_map (flat_map quantifiers) bs
  | LookAroundAssertion cs => flat_map quantifiers cs
  end.

Fixpoint group_ids (t : Node) : list string :=
  match t with
  | Character _ _ => []
  | Group i _ cs _ => i :: flat_map group_ids cs
  | Choice bs => flat_map (flat_map group_ids) bs
  | LookAroundAssertion cs => flat_map group_ids cs
  end.

(** The characters at which [consume] calls [consumeQuantifier]. *)
Definition opens_quantifier (c : ascii) : bool :=
  Ascii.eqb c "{" || Ascii.eqb c "?" || Ascii.eqb c "*" || Ascii.eqb c "+".

(** What [validate] requires of the literal the parser holds. *)
Definition accepted (RegExp : text -> text -> option string) (s : text) : Prop :=
  s !! 0 = Some "/"%char /\ "/"%char ∈ drop 1 s /\
  forallb flag_test (flag_letters s) = true /\
  RegExp (literal_body s) (flag_letters s) = None.

(** The state of a heap whose quantifiers all have the bounds of their
    kind. *)
Definition quantifiers_inv (p : Parser) : Prop :=
  Forall (fun q => quantifier_ok q = true) (omap obj_quantifier (heap p)).

(** One call of [nanoid] per node, in allocation order. *)
Definition ids_inv (nanoid : nat -> string) (p : Parser) : Prop :=
  nanoid_calls p = length (heap p) /\
  omap obj_id (heap p) = map nanoid (seq 0 (length (heap p))).

(** As [post], for a method that must not throw either. *)
Definition returns {A} (p : Parser) (r : outcome (A * Parser)) : Prop :=
  match r with
  | Val (_, p') => tree_inv p' /\ cursor_inv p' /\ frame p p'
  | TypeError | Diverge => False
  end.


(* ===================================================================== *)
(** ** Texts *)

Lemma trimStart_spaces (w s : text) :
  forallb is_space w = true -> trimStart (w ++ s) = trimStart s.
Proof.
  induction w as [|c w IH]; simpl; [done|].
  intros [Hc Hw]%andb_prop. rewrite Hc. auto.
Qed.

Lemma trimStart_app_spaces (s w : text) :
  forallb is_space w = true ->
  trimStart (s ++ w) = match trimStart s with [] => [] | t => t ++ w end.
Proof.
  intros Hw. induction s as [|c s IH]; simpl.
  - rewrite <- (app_nil_r w). rewrite trimStart_spaces by done. done.
  - destruct (is_space c); [exact IH | done].
Qed.

Lemma trim_spaces (w1 s w2 : text) :
  forallb is_space w1 = true -> forallb is_space w2 = true ->
  trim (w1 ++ s ++ w2) = trim s.
Proof.
  intros H1 H2. unfold trim.
  rewrite trimStart_spaces by done.
  rewrite trimStart_app_spaces by done.
  destruct (trimStart s) as [|c t] eqn:E; [done|].
  rewrite rev_app_distr, trimStart_spaces; [done|].
  rewrite forallb_forall in *. intros x Hx. apply H2. by apply in_rev.
Qed.

Lemma starts_with_lookup (pre s : text) :
  starts_with pre s = true -> forall j c, pre !! j = Some c -> s !! j = Some c.
Proof.
  revert s. induction pre as [|a pre IH]; intros [|b s] H j c Hj; try done.
  simpl in H. apply andb_prop in H as [Hab H].
  apply Ascii.eqb_eq in Hab as ->.
  destruct j as [|j]; simpl in *; [done|]. eauto.
Qed.

Lemma span_length f (s : text) : length (span f s) <= length s.
Proof. induction s as [|c s IH]; simpl; [lia|]. destruct (f c); simpl; lia. Qed.

Lemma last_occurrence_spec (ep s : text) k k' :
  last_occurrence ep s k = Some k' ->
  k' <= k /\ starts_with ep (drop k' s) = true.
Proof.
  induction k as [|k IH]; simpl.
  - destruct (starts_with ep (drop 0 s)) eqn:E; [|done].
    intros [= <-]. done.
  - destruct (starts_with ep (drop (S k) s)) eqn:E.
    + intros [= <-]. done.
    + intros H. apply IH in H as [? ?]. split; [lia | done].
Qed.

Lemma match_upto_spec (ep s t : text) :
  match_upto ep s = Some t ->
  length t <= length s /\ starts_with ep (drop (length t) s) = true.
Proof.
  unfold match_upto. intros H.
  apply fmap_Some in H as (k & Hk & ->).
  apply last_occurrence_spec in Hk as [Hle Hk].
  pose proof (span_length (fun c => negb (is_line_terminator c)) s).
  rewrite length_take. rewrite Nat.min_l by lia. split; [lia | done].
Qed.

Lemma existsb_eqb_elem (c : ascii) (s : list ascii) :
  existsb (Ascii.eqb c) s = true <-> c ∈ s.
Proof.
  rewrite existsb_exists. split.
  - intros (x & Hx & ->%Ascii.eqb_eq). by apply list_elem_of_In.
  - intros H. exists c. split; [by apply list_elem_of_In | apply Ascii.eqb_refl].
Qed.

Lemma indexOf_from_spec (c : ascii) (s : text) k i :
  indexOf_from c k s = Some i ->
  k <= i /\ s !! i = Some c /\ forall j, k <= j < i -> s !! j <> Some c.
Proof.
  revert k i. induction s as [|a s IH]; intros k i; simpl; [done|].
  destruct k as [|k].
  - destruct (Ascii.eqb a c) eqn:E.
    + intros [= <-]. apply Ascii.eqb_eq in E as ->.
      split; [lia|]. split; [done|]. intros j ?. lia.
    + intros (i' & Hi' & ->)%fmap_Some. apply IH in Hi' as (_ & Hc & Hlt).
      split; [lia|]. split; [done|]. intros [|j] Hj; simpl.
      * intros [= ->]. by rewrite Ascii.eqb_refl in E.
      * apply Hlt. lia.
  - intros (i' & Hi' & ->)%fmap_Some. apply IH in Hi' as (Hle & Hc & Hlt).
    split; [lia|]. split; [done|]. intros [|j] Hj; simpl; [lia|].
    apply Hlt. lia.
Qed.

Lemma indexOf_from_None (c : ascii) (s : text) k :
  indexOf_from c k s = None <-> c ∉ drop k s.
Proof.
  revert k. induction s as [|a s IH]; intros k; simpl.
  - rewrite drop_nil. split; [intros _; apply not_elem_of_nil | done].
  - destruct k as [|k]; simpl.
    + destruct (Ascii.eqb a c) eqn:E.
      * apply Ascii.eqb_eq in E as ->. split; [done|].
        intros H. exfalso. apply H. left.
      * rewrite fmap_None, IH. simpl. rewrite not_elem_of_cons.
        apply Ascii.eqb_neq in E. naive_solver.
    + rewrite fmap_None. apply IH.
Qed.

Lemma indexOf_zero (c : ascii) (s : text) :
  indexOf c s = Some 0 <-> s !! 0 = Some c.
Proof.
  unfold indexOf. destruct s as [|a s]; simpl; [done|].
  destruct (Ascii.eqb a c) eqn:E.
  - apply Ascii.eqb_eq in E as ->. done.
  - apply Ascii.eqb_neq in E. split.
    + intros (? & ? & ?)%fmap_Some. done.
    + intros [= ->]. done.
Qed.

Lemma validate_flags_true (rest : text) set set' :
  validate_flags rest set = (true, set') ->
  forallb flag_test rest = true /\
  set' = fold_left (fun acc c => set_add c acc) rest set.
Proof.
  revert set. induction rest as [|c rest IH]; intros set; simpl.
  - by intros [= <-].
  - destruct (flag_test c); simpl; [|done]. apply IH.
Qed.

Lemma validate_flags_false (rest : text) set set' :
  validate_flags rest set = (false, set') ->
  exists c, c ∈ rest /\ flag_test c = false.
Proof.
  revert set. induction rest as [|c rest IH]; intros set; simpl; [done|].
  destruct (flag_test c) eqn:E; simpl.
  - intros (c' & ? & ?)%IH. exists c'. split; [by right | done].
  - intros _. exists c. split; [left | done].
Qed.

Lemma validate_flags_reject (rest : text) set c :
  c ∈ rest -> flag_test c = false -> (validate_flags rest set).1 = false.
Proof.
  revert set. induction rest as [|a rest IH]; intros set Hin Hc.
  - by apply elem_of_nil in Hin.
  - simpl. destruct (flag_test a) eqn:E; simpl; [|done].
    apply elem_of_cons in Hin as [->|Hin]; [congruence|]. by apply IH.
Qed.

Lemma set_add_fold (l acc : list ascii) :
  fold_left (fun acc c => set_add c acc) l acc
  = acc ++ filter (fun c => c ∉ acc) (first_occurrences l).
Proof.
  revert acc. induction l as [|c l IH]; intros acc; simpl.
  - by rewrite app_nil_r.
  - rewrite IH. unfold set_add.
    destruct (existsb (Ascii.eqb c) acc) eqn:E.
    + apply existsb_eqb_elem in E.
      rewrite filter_cons_False by naive_solver.
      rewrite list_filter_filter. f_equal.
      apply list_filter_iff. intros x. naive_solver.
    + assert (c ∉ acc) as Hc.
      { rewrite <- existsb_eqb_elem. by rewrite E. }
      rewrite filter_cons_True by done.
      rewrite <- app_assoc. simpl. do 2 f_equal.
      rewrite list_filter_filter. apply list_filter_iff. intros x.
      rewrite elem_of_app, list_elem_of_singleton. naive_solver.
Qed.

Lemma set_add_fold_nil (l : list ascii) :
  fold_left (fun acc c => set_add c acc) l [] = first_occurrences l.
Proof.
  rewrite set_add_fold. simpl.
  induction (first_occurrences l) as [|x k IH]; [done|].
  rewrite filter_cons_True by apply not_elem_of_nil. by rewrite IH.
Qed.

Lemma first_occurrences_elem (l : list ascii) c :
  c ∈ first_occurrences l <-> c ∈ l.
Proof.
  induction l as [|a l IH]; simpl; [done|].
  rewrite !elem_of_cons, list_elem_of_filter, IH.
  destruct (decide (c = a)); naive_solver.
Qed.

Lemma first_occurrences_NoDup (l : list ascii) : NoDup (first_occurrences l).
Proof.
  induction l as [|a l IH]; simpl; [constructor|].
  constructor.
  - rewrite list_elem_of_filter. naive_solver.
  - by apply NoDup_filter.
Qed.


(** The first ["/"] after the opening delimiter cuts the literal. *)
Lemma indexOf_from_first (c x : ascii) (body rest : text) :
  c ∉ body ->
  indexOf_from c 1 (x :: body ++ c :: rest) = Some (S (length body)).
Proof.
  intros Hc. simpl.
  assert (indexOf_from c 0 (body ++ c :: rest) = Some (length body)) as ->;
    [|done].
  induction body as [|a body IH]; simpl.
  - by rewrite Ascii.eqb_refl.
  - apply not_elem_of_cons in Hc as [Hne Hc].
    destruct (Ascii.eqb a c) eqn:E; [apply Ascii.eqb_eq in E; congruence|].
    by rewrite IH.
Qed.

Lemma literal_parts (body rest : text) :
  "/"%char ∉ body ->
  literal_body ("/"%char :: body ++ "/"%char :: rest) = body /\
  flag_letters ("/"%char :: body ++ "/"%char :: rest) = rest.
Proof.
  intros Hc. unfold literal_body, flag_letters, slice.
  rewrite (indexOf_from_first _ _ _ _ Hc). split.
  - replace (S (length body) - 1) with (length body) by lia.
    change (take (length body) (body ++ "/"%char :: rest) = body).
    apply take_app_length.
  - replace (S (length body) + 1) with (S (S (length body))) by lia.
    change (drop (S (length body)) (body ++ "/"%char :: rest) = rest).
    rewrite (cons_middle "/"%char body rest), app_assoc.
    apply drop_app_length'. rewrite length_app. simpl. lia.
Qed.

(* ===================================================================== *)
(** ** The cursor *)

Lemma set_index_id p : set_index (index p) p = p.
Proof. by destruct p. Qed.

Lemma advance_cases step p :
  (index p + 1 = length (regex p) /\ advance step p = Val (false, p)) \/
  (index p + 1 <> length (regex p) /\
   advance step p = Val (true, set_index (index p + step) p)).
Proof.
  unfold advance.
  destruct (Z.eqb_spec (Z.of_nat (index p)) (Z.of_nat (length (regex p)) - 1));
    [left | right]; split; (lia || done).
Qed.

Lemma flag_test_cases c :
  flag_test c = true ->
  c ∈ js "gimsuy".
Proof. unfold flag_test. apply existsb_eqb_elem. Qed.

(** A character that is neither the delimiter nor a flag letter is not the
    last one of a literal with a safe end. *)
Lemma cur_inner p k c :
  safe_end (regex p) = true ->
  is_char c (cur k p) = true ->
  Ascii.eqb c "/" || flag_test c = false ->
  index p + k + 1 < length (regex p).
Proof.
  unfold safe_end, cur, is_char. intros He Hc Hn.
  destruct (regex p !! (index p + k)) as [c'|] eqn:E; [|done].
  apply Ascii.eqb_eq in Hc as ->.
  pose proof (lookup_lt_Some _ _ _ E) as Hlt.
  destruct (decide (index p + k + 1 = length (regex p))) as [Heq|]; [|lia].
  rewrite last_lookup in He.
  replace (pred (length (regex p))) with (index p + k) in He by lia.
  rewrite E in He. congruence.
Qed.

Lemma eat_literal_lookup p l k j c :
  truthy (eat (literal l) [] k p) = true ->
  l !! j = Some c -> cur (k + j) p = Some c.
Proof.
  unfold eat, match_start, cur. simpl.
  destruct (starts_with l (drop (index p + k) (regex p))) eqn:E; [|done].
  intros _ Hj. pose proof (starts_with_lookup _ _ E _ _ Hj) as H.
  rewrite lookup_drop in H. by rewrite Nat.add_assoc.
Qed.

Lemma eat_upto_lookup p l ep name j c :
  eat (literal l) ep 0 p = Some name -> ep <> [] ->
  ep !! j = Some c -> cur (length l + length name + j) p = Some c.
Proof.
  unfold eat, match_start, cur. rewrite Nat.add_0_r.
  destruct ep as [|e ep]; [done|]. intros H _ Hj.
  destruct (starts_with l (drop (index p) (regex p))) eqn:E; [|done].
  apply match_upto_spec in H as [_ H].
  pose proof (starts_with_lookup _ _ H _ _ Hj) as H'.
  rewrite !lookup_drop in H'. rewrite <- H'. f_equal. lia.
Qed.

(* ===================================================================== *)
(** ** The body parse keeps the invariants and terminates *)

Lemma frame_refl p : frame p p.
Proof. by constructor. Qed.

Lemma frame_trans p1 p2 p3 : frame p1 p2 -> frame p2 p3 -> frame p1 p3.
Proof.
  intros [] []. constructor; try congruence. lia.
Qed.

Lemma omap_insert_same {B} (f : obj -> option B) (h : list obj) a o o' :
  h !! a = Some o -> f o' = f o -> omap f (<[a:=o']> h) = omap f h.
Proof.
  revert a. induction h as [|x h IH]; intros [|a] Ha Hf; try done.
  - injection Ha as ->. cbn. by rewrite Hf.
  - cbn. destruct (f x); [f_equal|]; apply (IH a Ha Hf).
Qed.

(** The [switch] of [consumeQuantifier] only moves the cursor, and keeps
    it inside the literal. *)
Lemma read_quantifier_spec p :
  cursor_inv p ->
  exists q i, read_quantifier p = Val (q, set_index i p) /\
              index p <= i < length (regex p).
Proof.
  intros [Hi He].
  assert (forall q : option Quantifier, exists q' i,
             Val (q, p) = Val (q', set_index i p) /\
                      index p <= i < length (regex p)) as Hstay.
  { intros q. exists q, (index p). rewrite set_index_id. split; [done | lia]. }
  assert (forall q : option Quantifier, exists q' i,
             (_ <- advance 1 ;; ret q) p = Val (q', set_index i p) /\
             index p <= i < length (regex p)) as Hone.
  { intros q. unfold bind, ret.
    destruct (advance_cases 1 p) as [[? ->]|[? ->]]; [apply Hstay|].
    exists q, (index p + 1). split; [done | lia]. }
  assert (forall k (q : option Quantifier),
             is_char "}" (cur k p) = true -> exists q' i,
             (_ <- advance (k + 1) ;; ret q) p = Val (q', set_index i p) /\
             index p <= i < length (regex p)) as Hjump.
  { intros k q Hk. unfold bind, ret.
    destruct (advance_cases (k + 1) p) as [[? ->]|[? ->]]; [apply Hstay|].
    exists q, (index p + (k + 1)). split; [done|].
    pose proof (cur_inner p k "}" He Hk eq_refl). lia. }
  unfold read_quantifier. unfold bind at 1. unfold reads at 1.
  destruct (is_char "?" (cur 0 p)); [apply Hone|].
  destruct (is_char "*" (cur 0 p)); [apply Hone|].
  destruct (is_char "+" (cur 0 p)); [apply Hone|].
  destruct (is_char "{" (cur 0 p)); [|apply Hstay].
  unfold bind at 1. unfold reads at 1.
  destruct (eat digits [] 1 p) as [[|d min]|] eqn:Emin; try apply Hstay.
  unfold bind at 1. unfold reads at 1.
  destruct (is_char "}" (cur (length (d :: min) + 1) p)) eqn:E1.
  { replace (length (d :: min) + 2) with (length (d :: min) + 1 + 1) by lia.
    by apply Hjump. }
  unfold bind at 1. unfold reads at 1. unfold bind at 1. unfold reads at 1.
  destruct (truthy (eat (literal (js ",")) [] (length (d :: min) + 1) p)
            && is_char "}" (cur (length (d :: min) + 2) p)) eqn:E2.
  { apply andb_prop in E2 as [_ E2].
    replace (length (d :: min) + 3) with (length (d :: min) + 2 + 1) by lia.
    by apply Hjump. }
  unfold bind at 1. unfold reads at 1. rewrite Emin.
  unfold bind at 1. unfold reads at 1. rewrite E1. apply Hstay.
Qed.

(** The arm for ["{min,max}"] never yields a quantifier: a custom
    quantifier read at the cursor has [max = min] or no upper bound. *)
Lemma read_quantifier_custom p q p' :
  read_quantifier p = Val (Some q, p') -> q_kind q = q_custom ->
  q_greedy q = true /\ (q_max q = q_min q \/ q_max q = Infinity).
Proof.
  unfold read_quantifier. unfold bind at 1. unfold reads at 1.
  assert (forall k (q0 : Quantifier),
             (_ <- advance k ;; ret (Some q0)) p = Val (Some q, p') -> q = q0) as Hadv.
  { intros k q0. unfold bind, ret.
    destruct (advance_cases k p) as [[? ->]|[? ->]]; congruence. }
  destruct (is_char "?" (cur 0 p)); [by intros ->%Hadv|].
  destruct (is_char "*" (cur 0 p)); [by intros ->%Hadv|].
  destruct (is_char "+" (cur 0 p)); [by intros ->%Hadv|].
  destruct (is_char "{" (cur 0 p)); [|done].
  unfold bind at 1. unfold reads at 1.
  destruct (eat digits [] 1 p) as [[|d min]|] eqn:Emin; try done.
  unfold bind at 1. unfold reads at 1.
  destruct (is_char "}" (cur (length (d :: min) + 1) p)) eqn:E1.
  { intros ->%Hadv. simpl. auto. }
  unfold bind at 1. unfold reads at 1. unfold bind at 1. unfold reads at 1.
  destruct (truthy (eat (literal (js ",")) [] (length (d :: min) + 1) p)
            && is_char "}" (cur (length (d :: min) + 2) p)) eqn:E2.
  { intros ->%Hadv. simpl. auto. }
  unfold bind at 1. unfold reads at 1. rewrite Emin.
  unfold bind at 1. unfold reads at 1. rewrite E1. done.
Qed.

Lemma post_frame {A} p p1 (r : outcome (A * Parser)) :
  frame p p1 -> post p1 r -> post p r.
Proof.
  intros Hf. destruct r as [[a p2]| |]; simpl; [|done..].
  intros (? & ? & ?). eauto using frame_trans.
Qed.

Lemma tree_inv_set_index i p : tree_inv p -> tree_inv (set_index i p).
Proof. by intros []. Qed.

Lemma moved_cursor p i :
  cursor_inv p -> index p <= i < length (regex p) ->
  cursor_inv (set_index i p) /\ frame p (set_index i p).
Proof.
  intros [] ?. split; constructor; simpl; (done || lia).
Qed.

Lemma attach_quantifier_post q p :
  tree_inv p -> cursor_inv p -> post p (attach_quantifier q p).
Proof.
  intros [Hp Hb Hl Hn Hc] Hcur. unfold attach_quantifier.
  destruct (prev p) as [a|]; [|done].
  destruct (heap p !! a) as [o|] eqn:E; [|done].
  pose proof (Forall_lookup_1 _ _ _ _ Hl E) as Hleaf.
  destruct o as [| i k [|] qo | |]; try done. simpl.
  split; [|split; [by destruct Hcur | by constructor]].
  constructor; simpl; try done.
  - by rewrite length_insert.
  - by apply Forall_insert.
  - by rewrite (omap_insert_same _ _ _ _ _ E).
Qed.

Lemma consumeQuantifier_post p :
  tree_inv p -> cursor_inv p -> post p (consumeQuantifier p).
Proof.
  intros Ht Hc. unfold consumeQuantifier. unfold bind at 1.
  destruct (read_quantifier_spec p Hc) as (q & i & -> & Hi).
  destruct (moved_cursor p i Hc Hi) as [Hc1 Hf1].
  pose proof (tree_inv_set_index i p Ht) as Ht1.
  destruct q as [q|]; [|done].
  apply (post_frame _ _ _ Hf1).
  set (p1 := set_index i p) in *.
  unfold bind at 1. unfold reads at 1. unfold bind at 1.
  assert (forall q' p2, tree_inv p2 -> cursor_inv p2 -> frame p1 p2 ->
            post p1 (match attach_quantifier q' p2 with
                     | Val (_, p') => ret true p'
                     | TypeError => TypeError
                     | Diverge => Diverge
                     end)) as Hattach.
  { intros q' p2 Ht2 Hc2 Hf2.
    pose proof (attach_quantifier_post q' p2 Ht2 Hc2) as H.
    destruct (attach_quantifier q' p2) as [[[] p3]| |]; simpl in *; try done.
    destruct H as (? & ? & ?). eauto using frame_trans. }
  destruct (is_char "?" (cur 0 p1)).
  - unfold bind at 1.
    destruct (advance_cases 1 p1) as [[? ->]|[? ->]]; simpl.
    + apply Hattach; auto using frame_refl.
    + destruct (moved_cursor p1 (index p1 + 1) Hc1) as [? ?].
      { destruct Hc1. lia. }
      apply Hattach; auto using tree_inv_set_index.
  - simpl. apply Hattach; auto using frame_refl.
Qed.

Lemma set_groupIndex_id p : set_groupIndex (groupIndex p) p = p.
Proof. by destruct p. Qed.

(** The head of [onGroup]: only the cursor and the counter change; the
    counter moves exactly when the group is a capturing one, which then
    carries the counter's previous value. *)
Lemma read_group_spec p :
  cursor_inv p ->
  exists g i n,
    read_group p = Val (g, set_groupIndex n (set_index i p)) /\
    index p <= i < length (regex p) /\
    match g with
    | capturing name =>
        name = number_to_string (groupIndex p) /\ n = groupIndex p + 1
    | _ => n = groupIndex p
    end.
Proof.
  intros [Hi He]. unfold read_group, bind, reads, ret, modify.
  assert (exists g i n,
            Val (capturing (number_to_string (groupIndex p)),
                 set_groupIndex (groupIndex p + 1) p)
            = Val (g, set_groupIndex n (set_index i p)) /\
            index p <= i < length (regex p) /\
            match g with
            | capturing name =>
                name = number_to_string (groupIndex p) /\ n = groupIndex p + 1
            | _ => n = groupIndex p
            end) as Hcap.
  { eexists _, (index p), _. rewrite set_index_id. split; [done|].
    split; [lia | done]. }
  assert (forall g k, g <> capturing (number_to_string (groupIndex p)) ->
            match g with capturing _ => False | _ => True end ->
            index p + k < length (regex p) ->
            exists g' i n,
              match advance k p with
              | Val (_, p') => Val (g, p')
              | TypeError => TypeError
              | Diverge => Diverge
              end = Val (g', set_groupIndex n (set_index i p)) /\
              index p <= i < length (regex p) /\
              match g' with
              | capturing name =>
                  name = number_to_string (groupIndex p) /\ n = groupIndex p + 1
              | _ => n = groupIndex p
              end) as Hother.
  { intros g k _ Hg Hk.
    destruct (advance_cases k p) as [[? ->]|[? ->]].
    - exists g, (index p), (groupIndex p).
      rewrite set_index_id, set_groupIndex_id.
      split; [done|]. split; [lia|]. by destruct g.
    - exists g, (index p + k), (groupIndex (set_index (index p + k) p)).
      rewrite set_groupIndex_id.
      split; [done|]. split; [lia|]. by destruct g. }
  destruct (truthy (eat (literal (js "?:")) [] 0 p)) eqn:Enc.
  - pose proof (eat_literal_lookup p _ 0 1 ":" Enc eq_refl) as Hcolon.
    assert (is_char ":" (cur 1 p) = true) as Hc.
    { simpl in Hcolon. by rewrite Hcolon. }
    pose proof (cur_inner p 1 ":" He Hc eq_refl).
    destruct (Hother nonCapturing 2) as (g & i & n & Hr & ? & ?);
      [done | done | lia |].
    destruct (advance 2 p) as [[? ?]| |]; try done.
    by exists g, i, n.
  - destruct (eat (literal (js "?<")) (js ">") 0 p) as [[|c name]|] eqn:En;
      try apply Hcap.
    pose proof (eat_upto_lookup p _ _ _ 0 ">" En ltac:(done) eq_refl) as Hgt.
    assert (is_char ">" (cur (length (js "?<") + length (c :: name) + 0) p) = true)
      as Hc by (by rewrite Hgt).
    pose proof (cur_inner p _ ">" He Hc eq_refl) as Hlt.
    change (length (js "?<")) with 2 in Hlt.
    destruct (Hother (namedCapturing (string_of_list_ascii (c :: name)))
                (length (c :: name) + 3)) as (g & i & n & Hr & ? & ?);
      [done | done | lia |].
    destruct (advance (length (c :: name) + 3) p) as [[? ?]| |]; try done.
    by exists g, i, n.
Qed.

Section BodyParse.

Variable nanoid : nat -> string.

Lemma tree_inv_set_prev a p : tree_inv p -> tree_inv (set_prev a p).
Proof. by intros []. Qed.

(** Opening a group: the node is allocated and appended to the body of the
    root; [this.parent] is not touched. *)
Lemma open_group_inv g i n p :
  tree_inv p -> cursor_inv p ->
  index p <= i < length (regex p) ->
  match g with
  | capturing name =>
      name = number_to_string (groupIndex p) /\ n = groupIndex p + 1
  | _ => n = groupIndex p
  end ->
  exists p',
    (groupNode <- new_group nanoid g ;; appendChild groupNode ;;; ret groupNode)
      (set_groupIndex n (set_index i p)) = Val (length (heap p), p') /\
    tree_inv p' /\ cursor_inv p' /\ frame p p' /\ index p' = i.
Proof.
  intros [Hp Hb Hl Hn Hc] [Hi He] Hlt Hg.
  unfold bind, new_group, appendChild, ret. simpl. rewrite Hp.
  eexists. split; [done|].
  split; [|split; [|split]];
    [| constructor; simpl; (done || lia) | constructor; simpl; (done || lia) | done].
  constructor; simpl.
  - done.
  - rewrite Hb, length_app. simpl.
    replace (length (heap p) + 1) with (S (length (heap p))) by lia.
    by rewrite seq_S.
  - apply Forall_app. split; [done|]. by constructor.
  - rewrite omap_app, Hn. simpl.
    destruct g as [name| |name']; simpl.
    + destruct Hg as [-> ->].
      replace (groupIndex p + 1 - 1) with (S (groupIndex p - 1)) by lia.
      rewrite seq_S, map_app. simpl. do 3 f_equal. lia.
    + subst n. by rewrite app_nil_r.
    + subst n. by rewrite app_nil_r.
  - destruct g; lia.
Qed.

Lemma onGroup_post consume p :
  (forall p1, tree_inv p1 -> cursor_inv p1 -> frame p p1 ->
              index p < index p1 -> post p1 (consume ")"%char p1)) ->
  tree_inv p -> cursor_inv p -> is_char "(" (cur 0 p) = true ->
  post p (onGroup nanoid consume p).
Proof.
  intros Hrec Ht Hc Hopen. unfold onGroup. unfold bind at 1.
  pose proof (cur_inner p 0 "(" (inv_end _ Hc) Hopen eq_refl) as Hin.
  destruct (advance_cases 1 p) as [[? _]|[_ ->]]; [lia|].
  destruct (moved_cursor p (index p + 1) Hc) as [Hc1 Hf1]; [lia|].
  pose proof (tree_inv_set_index (index p + 1) p Ht) as Ht1.
  set (p1 := set_index (index p + 1) p) in *.
  unfold bind at 1.
  destruct (read_group_spec p1 Hc1) as (g & i & n & -> & Hi & Hg).
  destruct (open_group_inv g i n p1 Ht1 Hc1 Hi Hg)
    as (p2 & Hopen2 & Ht2 & Hc2 & Hf2 & Hi2).
  unfold bind at 1 in Hopen2. unfold bind at 1.
  destruct (new_group nanoid g (set_groupIndex n (set_index i p1)))
    as [[a p3]| |]; [|done..].
  unfold bind at 1 in Hopen2. unfold bind at 1.
  destruct (appendChild a p3) as [[[] p4]| |]; [|done..].
  injection Hopen2 as -> ->.
  unfold bind at 1.
  assert (frame p p2) as Hf by eauto using frame_trans.
  assert (index p < index p2) as Hlt by (simpl in Hi; lia).
  pose proof (Hrec p2 Ht2 Hc2 Hf Hlt) as H.
  destruct (consume ")"%char p2) as [[[] p5]| |]; [|done..].
  destruct H as (Ht5 & Hc5 & Hf5). simpl.
  split; [by apply tree_inv_set_prev|].
  split; [by destruct Hc5|].
  destruct Hf, Hf5. constructor; simpl; (congruence || lia).
Qed.

(** The loop keeps the invariants and ends within [fuel] iterations when
    [fuel] covers the characters still ahead of the cursor. *)
Lemma consume_post fuel endPoint p :
  tree_inv p -> cursor_inv p ->
  length (regex p) - index p <= fuel ->
  post p (consume nanoid fuel endPoint p).
Proof.
  revert endPoint p. induction fuel as [|fuel IH]; intros endPoint p Ht Hc Hfuel.
  { destruct Hc. lia. }
  simpl. unfold bind at 1. unfold reads at 1.
  destruct (is_char endPoint (cur 0 p)).
  { simpl. auto using frame_refl. }
  unfold bind at 1.
  assert (forall p1, tree_inv p1 -> cursor_inv p1 -> frame p p1 ->
            post p ((more <- advance 1 ;;
                     if more then consume nanoid fuel endPoint else ret tt) p1))
    as Hloop.
  { intros p1 Ht1 Hc1 Hf1. unfold bind.
    destruct (advance_cases 1 p1) as [[? ->]|[? ->]]; [by simpl|].
    destruct (moved_cursor p1 (index p1 + 1) Hc1) as [Hc2 Hf2].
    { destruct Hc1. lia. }
    apply (post_frame _ _ _ (frame_trans _ _ _ Hf1 Hf2)).
    apply IH; [by apply tree_inv_set_index | done |].
    destruct Hf1. simpl. rewrite fr_regex0. lia. }
  destruct (is_char "{" (cur 0 p) || is_char "?" (cur 0 p)
            || is_char "*" (cur 0 p) || is_char "+" (cur 0 p)).
  - unfold bind at 1.
    pose proof (consumeQuantifier_post p Ht Hc) as H.
    destruct (consumeQuantifier p) as [[b p1]| |]; [|done..].
    destruct H as (? & ? & ?). by apply Hloop.
  - destruct (is_char "(" (cur 0 p)) eqn:Eopen.
    + assert (post p (onGroup nanoid (consume nanoid fuel) p)) as H.
      { apply onGroup_post; try done.
        intros p1 Ht1 Hc1 Hf1 Hlt. apply IH; try done.
        destruct Hf1. rewrite fr_regex0. lia. }
      destruct (onGroup nanoid (consume nanoid fuel) p) as [[[] p1]| |]; [|done..].
      destruct H as (? & ? & ?). by apply Hloop.
    + apply Hloop; auto using frame_refl.
Qed.

End BodyParse.

(* ===================================================================== *)
(** ** Validation *)

Section Validation.

Variable RegExp : text -> text -> option string.

(** The three ways [validate] fails and the one way it passes. *)
Lemma validate_spec p :
  match validate RegExp p with
  | Val (true, p') =>
      regex p !! 0 = Some "/"%char /\
      "/"%char ∈ drop 1 (regex p) /\
      forallb flag_test (flag_letters (regex p)) = true /\
      RegExp (literal_body (regex p)) (flag_letters (regex p)) = None /\
      p' = set_flagSet
             (fold_left (fun acc c => set_add c acc) (flag_letters (regex p))
                        (flagSet p)) p
  | Val (false, p') =>
      (message p' = "Invalid regular expression" /\
       (regex p !! 0 <> Some "/"%char \/ "/"%char ∉ drop 1 (regex p))) \/
      (message p' = "Invalid regular expression flags" /\
       regex p !! 0 = Some "/"%char /\ "/"%char ∈ drop 1 (regex p) /\
       exists c, c ∈ flag_letters (regex p) /\ flag_test c = false) \/
      (regex p !! 0 = Some "/"%char /\ "/"%char ∈ drop 1 (regex p) /\
       forallb flag_test (flag_letters (regex p)) = true /\
       RegExp (literal_body (regex p)) (flag_letters (regex p))
       = Some (message p'))
  | TypeError | Diverge => False
  end.
Proof.
  unfold validate, flag_letters, literal_body.
  destruct (bool_decide (indexOf "/" (regex p) = Some 0)) eqn:Es; simpl.
  2:{ left. split; [done|]. left. rewrite <- indexOf_zero.
      by apply bool_decide_eq_false in Es. }
  apply bool_decide_eq_true in Es. apply indexOf_zero in Es.
  destruct (indexOf_from "/" 1 (regex p)) as [e|] eqn:Ee.
  2:{ left. split; [done|]. right. by apply indexOf_from_None. }
  assert ("/"%char ∈ drop 1 (regex p)) as Hclose.
  { destruct (decide ("/"%char ∈ drop 1 (regex p))) as [|Hn]; [done|].
    apply indexOf_from_None in Hn. congruence. }
  destruct (validate_flags (drop (e + 1) (regex p)) (flagSet p))
    as [[|] set] eqn:Ef; simpl.
  - apply validate_flags_true in Ef as [Hall ->].
    destruct (RegExp (slice 1 e (regex p)) (drop (e + 1) (regex p))) eqn:Er.
    + right. right. done.
    + done.
  - apply validate_flags_false in Ef. right. left. done.
Qed.

(** A validated literal has at least its two delimiters and ends in the
    closing delimiter or in a flag letter. *)
Lemma validated_safe_end (s : text) :
  s !! 0 = Some "/"%char -> "/"%char ∈ drop 1 s ->
  forallb flag_test (flag_letters s) = true ->
  2 <= length s /\ safe_end s = true.
Proof.
  intros H0 Hclose Hall. unfold flag_letters in Hall.
  destruct (indexOf_from "/" 1 s) as [e|] eqn:Ee.
  2:{ apply indexOf_from_None in Ee. done. }
  apply indexOf_from_spec in Ee as (He1 & He & _).
  pose proof (lookup_lt_Some _ _ _ He) as Hlt.
  split; [lia|]. unfold safe_end. rewrite last_lookup.
  destruct (decide (length s = e + 1)) as [Heq|Hne].
  - replace (pred (length s)) with e by lia. by rewrite He.
  - destruct (s !! pred (length s)) as [c|] eqn:Ec.
    2:{ apply lookup_ge_None in Ec. lia. }
    replace (pred (length s)) with (e + 1 + (length s - e - 2)) in Ec by lia.
    rewrite <- lookup_drop in Ec.
    rewrite forallb_forall in Hall.
    rewrite (Hall c); [apply orb_true_r|].
    apply list_elem_of_In. by eapply list_elem_of_lookup_2.
Qed.

End Validation.

(* ===================================================================== *)
(** ** The whole parse *)

Lemma lookup_seq_flat_map {B} (g : option obj -> list B) (pre h : list obj) :
  flat_map (fun a => g ((pre ++ h) !! a)) (seq (length pre) (length h))
  = flat_map (fun o => g (Some o)) h.
Proof.
  revert pre. induction h as [|x h IH]; intros pre; simpl; [done|].
  rewrite list_lookup_middle by done. f_equal.
  specialize (IH (pre ++ [x])).
  rewrite length_app, <- app_assoc in IH. simpl in IH.
  by replace (length pre + 1) with (S (length pre)) in IH by lia.
Qed.

Lemma flat_map_ext_Forall {B C} (f g : B -> list C) (l : list B) :
  Forall (fun x => f x = g x) l -> flat_map f l = flat_map g l.
Proof. induction 1 as [|x l Hx _ IH]; simpl; [done|]. by rewrite Hx, IH. Qed.

(** Under the invariant the tree is flat: one childless group per heap
    object, in allocation order. *)
Lemma ast_body_flat p :
  tree_inv p -> body (ast p) = flat_map leaf_node (heap p).
Proof.
  intros [_ Hb Hl _ _]. unfold ast. simpl body. rewrite Hb.
  set (d := length (heap p)). set (h := heap p) at 1 2.
  set (g := fun o : option obj =>
         match o with
         | None => []
         | Some (character_obj v q) => [Character v q]
         | Some (group_obj i k cs q) => [Group i k (flat_map (reify d h) cs) q]
         | Some (choice_obj bs) => [Choice (map (flat_map (reify d h)) bs)]
         | Some (lookAround_obj cs) =>
             [LookAroundAssertion (flat_map (reify d h) cs)]
         end).
  transitivity (flat_map (fun a => g (([] ++ heap p) !! a))
                         (seq (length (@nil obj)) (length (heap p)))).
  { apply flat_map_ext. intros a. done. }
  rewrite lookup_seq_flat_map. apply flat_map_ext_Forall.
  eapply Forall_impl; [exact Hl|]. simpl.
  by intros [| i k [|] qo | |].
Qed.

Lemma flat_leaf_capture_names (h : list obj) :
  Forall (fun o => is_leaf_group o = true) h ->
  flat_map capture_names (flat_map leaf_node h) = omap capture_name h.
Proof.
  induction 1 as [|o h Ho _ IH]; [done|].
  simpl. rewrite flat_map_app, IH.
  destruct o as [| i k [|] qo | |]; try done.
  by destruct k.
Qed.

Lemma flat_leaf_shape (h : list obj) :
  Forall (fun t => exists i k q, t = Group i k [] q) (flat_map leaf_node h).
Proof.
  induction h as [|o h IH]; simpl; [constructor|].
  apply Forall_app. split; [|done].
  destruct o as [| i k [|] qo | |]; simpl; try constructor; eauto.
Qed.

Section WholeParse.

Variable RegExp : text -> text -> option string.
Variable nanoid : nat -> string.

Lemma onRegex_post p :
  heap p = [] -> ast_body p = [] -> groupIndex p = 1 -> index p = 0 ->
  2 <= length (regex p) -> safe_end (regex p) = true ->
  match onRegex nanoid (length (regex p)) p with
  | Val (_, p') =>
      tree_inv p' /\
      ast_flags p' = ast_flags p
                     ++ map (fun flag => {| f_kind := flagDict flag |}) (flagSet p)
  | TypeError => True
  | Diverge => False
  end.
Proof.
  intros Hh Hb Hg Hi Hlen He.
  unfold onRegex, onRegexBody. unfold bind at 1. unfold modify at 1.
  unfold bind at 1. unfold bind at 1.
  set (p0 := set_parent (Some root_ref) p).
  destruct (advance_cases 1 p0) as [[? _]|[_ ->]].
  { simpl in *. lia. }
  set (p1 := set_index (index p0 + 1) p0).
  assert (tree_inv p1) as Ht1.
  { constructor; simpl; try done.
    - by rewrite Hb, Hh.
    - rewrite Hh. constructor.
    - by rewrite Hh, Hg.
    - lia. }
  assert (cursor_inv p1) as Hc1.
  { constructor; simpl; [lia | done]. }
  pose proof (consume_post nanoid (length (regex p)) "/" p1 Ht1 Hc1) as H.
  destruct (consume nanoid (length (regex p)) "/" p1) as [[[] p2]| |].
  - destruct H as (Ht2 & _ & [_ Hfs Hfl _]); [simpl; lia|].
    unfold onFlags, modify. split.
    + by destruct Ht2.
    + simpl. by rewrite Hfs, Hfl.
  - done.
  - apply H. simpl. lia.
Qed.

(** [Parser.parse] on a freshly constructed parser, by the outcome of
    [validate]. *)
Lemma Parser_parse_spec p :
  heap p = [] -> ast_body p = [] -> ast_flags p = [] ->
  groupIndex p = 1 -> index p = 0 ->
  match validate RegExp p with
  | Val (true, p1) =>
      match Parser_parse RegExp nanoid p with
      | Val (ROk t) =>
          flags t = map (fun flag => {| f_kind := flagDict flag |}) (flagSet p1) /\
          exists p', tree_inv p' /\ body t = flat_map leaf_node (heap p')
      | Val (RError _) => False
      | TypeError => True
      | Diverge => False
      end
  | Val (false, p1) => Parser_parse RegExp nanoid p = Val (RError (message p1))
  | TypeError | Diverge => False
  end.
Proof.
  intros Hh Hb Hf Hg Hi. unfold Parser_parse.
  pose proof (validate_spec RegExp p) as Hv.
  destruct (validate RegExp p) as [[[|] p1]| |]; try done.
  destruct Hv as (H0 & Hclose & Hall & _ & ->).
  destruct (validated_safe_end _ H0 Hclose Hall) as [Hlen He].
  set (p1 := set_flagSet _ p).
  pose proof (onRegex_post p1 Hh Hb Hg Hi Hlen He) as H.
  destruct (onRegex nanoid (length (regex p1)) p1) as [[[] p2]| |]; try done.
  destruct H as [Ht Hfl]. split.
  - simpl. rewrite Hfl. simpl. by rewrite Hf.
  - exists p2. split; [done|]. by apply ast_body_flat.
Qed.

End WholeParse.

(* ===================================================================== *)
(** ** Group ids do not steer the parse *)

Lemma erase_parser_fields p p' :
  erase_parser p = erase_parser p' <->
  regex p = regex p' /\ message p = message p' /\ index p = index p' /\
  ast_body p = ast_body p' /\ ast_flags p = ast_flags p' /\
  map erase_obj (heap p) = map erase_obj (heap p') /\
  parent p = parent p' /\ prev p = prev p' /\
  groupIndex p = groupIndex p' /\ flagSet p = flagSet p'.
Proof.
  destruct p, p'. unfold erase_parser. simpl. split.
  - intros [=]. by repeat split.
  - intros (-> & -> & -> & -> & -> & -> & -> & -> & -> & ->). done.
Qed.

Lemma sim_ret {A} (a : A) : sim (ret a) (ret a).
Proof. by intros p p' H. Qed.

Lemma sim_bind {A B} (m m' : M A) (k k' : A -> M B) :
  sim m m' -> (forall a, sim (k a) (k' a)) -> sim (bind m k) (bind m' k').
Proof.
  intros Hm Hk p p' H. unfold bind. specialize (Hm p p' H).
  destruct (m p) as [[a p1]| |], (m' p') as [[a' p1']| |]; try done.
  destruct Hm as [<- H1]. by apply Hk.
Qed.

Lemma sim_reads {A} (f : Parser -> A) :
  (forall p p', erase_parser p = erase_parser p' -> f p = f p') ->
  sim (reads f) (reads f).
Proof. intros Hf p p' H. simpl. split; [by apply Hf | done]. Qed.

Lemma sim_cur k : sim (reads (cur k)) (reads (cur k)).
Proof.
  apply sim_reads. intros p p' (Hr & _ & Hi & _)%erase_parser_fields.
  unfold cur. by rewrite Hr, Hi.
Qed.

Lemma sim_eat sp ep k : sim (reads (eat sp ep k)) (reads (eat sp ep k)).
Proof.
  apply sim_reads. intros p p' (Hr & _ & Hi & _)%erase_parser_fields.
  unfold eat. by rewrite Hr, Hi.
Qed.

Lemma sim_groupIndex : sim (reads groupIndex) (reads groupIndex).
Proof.
  apply sim_reads. by intros p p' (_&_&_&_&_&_&_&_& Hg & _)%erase_parser_fields.
Qed.

Lemma sim_modify (f : Parser -> Parser) :
  (forall p p', erase_parser p = erase_parser p' ->
                erase_parser (f p) = erase_parser (f p')) ->
  sim (modify f) (modify f).
Proof. intros Hf p p' H. simpl. split; [done | by apply Hf]. Qed.

Lemma sim_advance k : sim (advance k) (advance k).
Proof.
  intros p p' H. pose proof H as (Hr & _ & Hi & _)%erase_parser_fields.
  unfold advance. rewrite <- Hr, <- Hi.
  destruct (_ =? _)%Z; simpl; [done|]. split; [done|].
  apply erase_parser_fields in H. apply erase_parser_fields.
  destruct p, p'; simpl in *. naive_solver.
Qed.

Lemma sim_set_groupIndex n : sim (modify (set_groupIndex n)) (modify (set_groupIndex n)).
Proof.
  apply sim_modify. intros p p' H.
  apply erase_parser_fields in H. apply erase_parser_fields.
  destruct p, p'; simpl in *. naive_solver.
Qed.

Lemma sim_set_prev a : sim (modify (set_prev a)) (modify (set_prev a)).
Proof.
  apply sim_modify. intros p p' H.
  apply erase_parser_fields in H. apply erase_parser_fields.
  destruct p, p'; simpl in *. naive_solver.
Qed.

Lemma erase_lookup (h h' : list obj) a :
  map erase_obj h = map erase_obj h' ->
  erase_obj <$> h !! a = erase_obj <$> h' !! a.
Proof.
  intros H. change (erase_obj <$> h = erase_obj <$> h') in H.
  by rewrite <- !list_lookup_fmap, H.
Qed.

Lemma erase_insert (h h' : list obj) a o o' :
  map erase_obj h = map erase_obj h' -> erase_obj o = erase_obj o' ->
  map erase_obj (<[a:=o]> h) = map erase_obj (<[a:=o']> h').
Proof.
  intros H Ho. change (erase_obj <$> h = erase_obj <$> h') in H.
  change (erase_obj <$> <[a:=o]> h = erase_obj <$> <[a:=o']> h').
  by rewrite !list_fmap_insert, H, Ho.
Qed.

Lemma sim_attach_quantifier q : sim (attach_quantifier q) (attach_quantifier q).
Proof.
  intros p p' H. apply erase_parser_fields in H.
  destruct H as (Hr & Hm & Hi & Hb & Hf & Hh & Hpa & Hpr & Hg & Hs).
  unfold attach_quantifier. rewrite <- Hpr.
  destruct (prev p) as [a|] eqn:Ep; [|done].
  pose proof (erase_lookup _ _ a Hh) as Ha.
  destruct (heap p !! a) as [o|], (heap p' !! a) as [o'|]; simpl in Ha; try done.
  injection Ha as Ho.
  destruct o, o'; try done; simpl in Ho; simplify_eq; simpl;
    (split; [done|]); apply erase_parser_fields; simpl;
    repeat split; try congruence; by apply erase_insert.
Qed.

Lemma sim_appendChild a : sim (appendChild a) (appendChild a).
Proof.
  intros p p' H. apply erase_parser_fields in H.
  destruct H as (Hr & Hm & Hi & Hb & Hf & Hh & Hpa & Hpr & Hg & Hs).
  unfold appendChild. rewrite <- Hpa.
  destruct (parent p) as [[|b]|] eqn:Ep; [| |done].
  { simpl. split; [done|]. apply erase_parser_fields; simpl.
    repeat split; try congruence. }
  pose proof (erase_lookup _ _ b Hh) as Ha.
  destruct (heap p !! b) as [o|], (heap p' !! b) as [o'|]; simpl in Ha; try done.
  injection Ha as Ho.
  destruct o, o'; try done; simpl in Ho; simplify_eq; simpl.
  - split; [done|]. apply erase_parser_fields. repeat split; congruence.
  - split; [done|]. apply erase_parser_fields; simpl.
    repeat split; try congruence. by apply erase_insert.
  - destruct (last branches0); [|done]. simpl.
    split; [done|]. apply erase_parser_fields; simpl.
    repeat split; try congruence. by apply erase_insert.
  - split; [done|]. apply erase_parser_fields; simpl.
    repeat split; try congruence. by apply erase_insert.
Qed.

Lemma sim_new_group n n' g : sim (new_group n g) (new_group n' g).
Proof.
  intros p p' H. apply erase_parser_fields in H.
  destruct H as (Hr & Hm & Hi & Hb & Hf & Hh & Hpa & Hpr & Hg & Hs).
  unfold new_group. simpl. split.
  - by rewrite <- (length_map erase_obj (heap p)), Hh, length_map.
  - apply erase_parser_fields; simpl. repeat split; try done.
    by rewrite !map_app, Hh.
Qed.

Ltac sim_auto :=
  repeat first
    [ apply sim_ret | apply sim_advance | apply sim_cur | apply sim_eat
    | apply sim_groupIndex | apply sim_set_groupIndex | apply sim_set_prev
    | apply sim_attach_quantifier | apply sim_appendChild | apply sim_new_group
    | apply sim_bind; [|intros ?]
    | match goal with
      | |- sim (if ?b then _ else _) _ => destruct b
      | |- sim (match ?x with _ => _ end) _ => destruct x
      end ].

Lemma sim_read_quantifier : sim read_quantifier read_quantifier.
Proof. unfold read_quantifier. sim_auto. Qed.

Lemma sim_consumeQuantifier : sim consumeQuantifier consumeQuantifier.
Proof. unfold consumeQuantifier. pose proof sim_read_quantifier. sim_auto; done. Qed.

Lemma sim_read_group : sim read_group read_group.
Proof. unfold read_group. sim_auto. Qed.

Lemma sim_onGroup n n' (c c' : ascii -> M unit) :
  (forall ep, sim (c ep) (c' ep)) -> sim (onGroup n c) (onGroup n' c').
Proof.
  intros Hc. unfold onGroup. pose proof sim_read_group. sim_auto; done.
Qed.

Lemma sim_consume n n' fuel ep : sim (consume n fuel ep) (consume n' fuel ep).
Proof.
  revert ep. induction fuel as [|fuel IH]; intros ep; simpl; [done|].
  pose proof sim_consumeQuantifier.
  pose proof (sim_onGroup n n' _ _ IH).
  sim_auto; done.
Qed.

Lemma map_flat_map {B C D} (f : C -> D) (g : B -> list C) (l : list B) :
  map f (flat_map g l) = flat_map (fun x => map f (g x)) l.
Proof. induction l as [|x l IH]; simpl; [done|]. by rewrite map_app, IH. Qed.

Lemma reify_erase d (h : list obj) a :
  map erase_ids (reify d h a) = reify d (map erase_obj h) a.
Proof.
  revert a. induction d as [|d IH]; intros a; simpl; [done|].
  change (map erase_obj h) with (erase_obj <$> h).
  rewrite list_lookup_fmap.
  assert (forall cs, map erase_ids (flat_map (reify d h) cs)
                     = flat_map (reify d (erase_obj <$> h)) cs) as Hcs.
  { intros cs. rewrite map_flat_map. by apply flat_map_ext. }
  destruct (h !! a) as [[v q|i k cs q|bs|cs]|]; simpl; try done.
  - by rewrite Hcs.
  - do 2 f_equal. rewrite map_map. apply map_ext. intros b. apply Hcs.
  - by rewrite Hcs.
Qed.

Lemma erase_ast p p' :
  erase_parser p = erase_parser p' ->
  map erase_ids (body (ast p)) = map erase_ids (body (ast p')) /\
  flags (ast p) = flags (ast p').
Proof.
  intros (_ & _ & _ & Hb & Hf & Hh & _)%erase_parser_fields.
  split; [|done]. unfold ast. cbn [body].
  rewrite !map_flat_map.
  rewrite (flat_map_ext _ _ (reify_erase (S (length (heap p))) (heap p))).
  rewrite (flat_map_ext _ _ (reify_erase (S (length (heap p'))) (heap p'))).
  rewrite <- (length_map erase_obj (heap p)).
  rewrite <- (length_map erase_obj (heap p')).
  by rewrite Hb, Hh.
Qed.

Lemma sim_onRegex n n' fuel : sim (onRegex n fuel) (onRegex n' fuel).
Proof.
  unfold onRegex, onRegexBody, onFlags.
  pose proof (sim_consume n n' fuel "/").
  repeat (apply sim_bind; [|intros ?]); try done; try apply sim_advance;
    apply sim_modify; intros q q' Hq;
    apply erase_parser_fields in Hq; apply erase_parser_fields;
    destruct q, q'; simpl in *; naive_solver.
Qed.

(** What [parse] returns does not depend on the id supply, group ids
    apart. *)
Lemma parse_erase RegExp n n' s :
  erase_result (parse RegExp n s) = erase_result (parse RegExp n' s).
Proof.
  unfold parse, Parser_parse.
  destruct (validate RegExp (new_Parser s)) as [[[|] p]| |]; try done.
  pose proof (sim_onRegex n n' (length (regex p)) p p eq_refl) as Hsim.
  destruct (onRegex n (length (regex p)) p) as [[[] p1]| |],
           (onRegex n' (length (regex p)) p) as [[[] p2]| |]; try done.
  destruct Hsim as [_ Hsim]. apply erase_ast in Hsim as [Hb Hf].
  unfold erase_result. by rewrite Hb, Hf.
Qed.

(* ===================================================================== *)
(** ** What [parse] returns *)

Section Outcomes.

Variable RegExp : text -> text -> option string.
Variable nanoid : nat -> string.

(** [parse] never runs forever; it reports an error exactly when
    validation fails, and otherwise throws or returns a flat tree whose
    flags are those recorded by validation. *)
Lemma parse_spec s :
  match validate RegExp (new_Parser s) with
  | Val (true, p1) =>
      parse RegExp nanoid s = TypeError \/
      exists t p',
        parse RegExp nanoid s = Val (ROk t) /\
        flags t = map (fun flag => {| f_kind := flagDict flag |}) (flagSet p1) /\
        tree_inv p' /\ body t = flat_map leaf_node (heap p')
  | Val (false, p1) => parse RegExp nanoid s = Val (RError (message p1))
  | TypeError | Diverge => False
  end.
Proof.
  pose proof (Parser_parse_spec RegExp nanoid (new_Parser s)
                eq_refl eq_refl eq_refl eq_refl eq_refl) as H.
  unfold parse.
  destruct (validate RegExp (new_Parser s)) as [[[|] p1]| |]; try done.
  destruct (Parser_parse RegExp nanoid (new_Parser s)) as [[t|m]| |]; try done.
  - right. destruct H as (Hf & p' & Ht & Hb). by exists t, p'.
  - by left.
Qed.

Lemma parse_terminates s : parse RegExp nanoid s <> Diverge.
Proof.
  pose proof (parse_spec s) as H.
  destruct (validate RegExp (new_Parser s)) as [[[|] p1]| |]; try done.
  - destruct H as [-> | (t & p' & -> & _)]; done.
  - by rewrite H.
Qed.

(** Every returned tree is a flat list of childless groups: no node of
    another variant is built, and no group is put inside a group. *)
Lemma returned_tree_flat s t :
  parse RegExp nanoid s = Val (ROk t) ->
  Forall (fun node => exists i k q, node = Group i k [] q) (body t).
Proof.
  intros Hp. pose proof (parse_spec s) as H.
  destruct (validate RegExp (new_Parser s)) as [[[|] p1]| |]; try done.
  - destruct H as [H | (t' & p' & H & _ & _ & Hb)]; [congruence|].
    rewrite Hp in H. injection H as <-. rewrite Hb. apply flat_leaf_shape.
  - congruence.
Qed.

End Outcomes.


Lemma flagDict_defined c : c ∈ js "gimsuy" -> is_Some (flagDict c).
Proof.
  intros Hc.
  repeat (apply elem_of_cons in Hc as [->|Hc]);
    try (by apply elem_of_nil in Hc); by eexists.
Qed.

(** [parse] consults [RegExp] once, on the body and the flags of the
    trimmed literal: two oracles that agree there give the same parse. *)
Lemma parse_oracle_ext RegExp RegExp' nanoid s :
  RegExp (literal_body (trim s)) (flag_letters (trim s))
  = RegExp' (literal_body (trim s)) (flag_letters (trim s)) ->
  parse RegExp nanoid s = parse RegExp' nanoid s.
Proof.
  unfold parse, Parser_parse, validate, literal_body, flag_letters.
  cbn [regex new_Parser flagSet]. intros H.
  destruct (negb (bool_decide (indexOf "/" (trim s) = Some 0))); [done|].
  destruct (indexOf_from "/" 1 (trim s)) as [e|]; [|done].
  destruct (validate_flags (drop (e + 1) (trim s)) []) as [[|] set]; [|done].
  cbn [negb regex set_flagSet new_Parser]. by rewrite H.
Qed.

(** Running the parser on a literal that the oracle accepts: the oracle
    may be replaced by one that accepts everything. *)
Lemma parse_accepted RegExp nanoid s :
  RegExp (literal_body (trim s)) (flag_letters (trim s)) = None ->
  parse RegExp nanoid s = parse accept_all nanoid s.
Proof. intros H. by apply parse_oracle_ext. Qed.

(** Replaces the oracle by [accept_all] in the parse of a literal that the
    hypothesis [H] says is accepted. *)
Ltac run_accepted H :=
  match goal with
  | |- context [parse ?R ?n ?s] =>
      lazymatch R with
      | accept_all => fail
      | _ => rewrite (parse_accepted R n s H)
      end
  end.

(* ===================================================================== *)
(** ** The claims of the specification *)

(** C1 (defect in the code).  The specification's end-to-end example says
    that ["/ab+/gi"] parses to a body of two Character nodes, the second
    carrying the quantifier [+], with flags [global; ignoreCase].  The
    code builds no Character node: [consume] passes over [a] and [b], so
    when it reaches [+] no previous sibling has been recorded and reading
    [this.prev.type] throws a TypeError; no tree is returned. *)
Theorem example_ab_plus_throws RegExp nanoid :
  RegExp (js "ab+") (js "gi") = None ->
  parse RegExp nanoid (js "/ab+/gi") = TypeError /\
  parse RegExp nanoid (js "/ab+/gi") <> Val (ROk spec_ab_plus).
Proof.
  intros H. run_accepted H.
  split; [by vm_compute | by vm_compute].
Qed.

Lemma example_ab_plus_throws_witness :
  accept_all (js "ab+") (js "gi") = None /\
  parse accept_all ids (js "/ab+/gi") = TypeError.
Proof.
  split; [by vm_compute|].
  apply (example_ab_plus_throws accept_all ids). by vm_compute.
Defined.

(** C2 (defect in the code).  The specification says that a group becomes
    the parent while its body is consumed, so that an inner group lands in
    the child sequence of the enclosing one.  [onGroup] never assigns
    [this.parent]: for ["/(a(b))/"] both groups are appended to the body of
    the root and the outer group's child sequence stays empty. *)
Theorem nested_group_is_not_nested RegExp nanoid :
  RegExp (js "(a(b))") [] = None ->
  parse RegExp nanoid (js "/(a(b))/")
  = Val (ROk {| body := [Group (nanoid 0) (capturing "1") [] None;
                         Group (nanoid 1) (capturing "2") [] None];
                flags := [] |}).
Proof. intros H. run_accepted H. by vm_compute. Qed.

Lemma nested_group_is_not_nested_witness :
  accept_all (js "(a(b))") [] = None /\
  parse accept_all ids (js "/(a(b))/")
  = Val (ROk {| body := [Group "0" (capturing "1") [] None;
                         Group "1" (capturing "2") [] None];
                flags := [] |}).
Proof.
  split; [by vm_compute|].
  apply (nested_group_is_not_nested accept_all ids). by vm_compute.
Defined.

(** C3 (defect in the code).  The specification says that ["{2,5}"] yields
    the quantifier [custom, min 2, max 5], the second digit run being read
    right after the comma.  [consumeQuantifier] reads it at offset 1, where
    [min] was read, and then tests the character after [min], already known
    not to be the closing brace: for ["/(a){2,5}/"] no quantifier is
    produced and the group is left without one. *)
Theorem bounded_quantifier_not_produced RegExp nanoid :
  RegExp (js "(a){2,5}") [] = None ->
  parse RegExp nanoid (js "/(a){2,5}/")
  = Val (ROk {| body := [Group (nanoid 0) (capturing "1") [] None];
                flags := [] |}).
Proof. intros H. run_accepted H. by vm_compute. Qed.

Lemma bounded_quantifier_not_produced_witness :
  accept_all (js "(a){2,5}") [] = None /\
  parse accept_all ids (js "/(a){2,5}/")
  = Val (ROk {| body := [Group "0" (capturing "1") [] None]; flags := [] |}).
Proof.
  split; [by vm_compute|].
  apply (bounded_quantifier_not_produced accept_all ids). by vm_compute.
Defined.

(** The other forms of section 8 are read as the specification says. *)
Lemma other_quantifier_forms RegExp nanoid :
  RegExp (js "(a){3}") [] = None -> RegExp (js "(a){3,}") [] = None ->
  RegExp (js "(a)*?") [] = None ->
  parse RegExp nanoid (js "/(a){3}/")
  = Val (ROk {| body := [Group (nanoid 0) (capturing "1") []
                           (Some (fixed q_custom 3 (Fin 3)))];
                flags := [] |}) /\
  parse RegExp nanoid (js "/(a){3,}/")
  = Val (ROk {| body := [Group (nanoid 0) (capturing "1") []
                           (Some (fixed q_custom 3 Infinity))];
                flags := [] |}) /\
  parse RegExp nanoid (js "/(a)*?/")
  = Val (ROk {| body := [Group (nanoid 0) (capturing "1") []
                           (Some (lazy (fixed q_star 0 Infinity)))];
                flags := [] |}).
Proof.
  intros H1 H2 H3.
  run_accepted H1.
  run_accepted H2.
  run_accepted H3.
  repeat split; by vm_compute.
Qed.

(** C4 (defect in the code).  The specification says that after validation
    the body parse raises no error, a quantifier with no preceding sibling
    being dropped silently.  [consumeQuantifier] reads [this.prev.type]
    while [prev] is still unassigned: for ["/a*/"] the parse throws a
    TypeError. *)
Theorem leading_quantifier_throws RegExp nanoid :
  RegExp (js "a*") [] = None ->
  parse RegExp nanoid (js "/a*/") = TypeError.
Proof. intros H. run_accepted H. by vm_compute. Qed.

Lemma leading_quantifier_throws_witness :
  accept_all (js "a*") [] = None /\
  parse accept_all ids (js "/a*/") = TypeError.
Proof.
  split; [by vm_compute|].
  apply (leading_quantifier_throws accept_all ids). by vm_compute.
Defined.

(** C5 (defect in the code).  The specification says that flag validation
    recognizes the seven letters [d g i m s u y].  The test in [validate]
    is [[gimsuy]], without [d], although [flagDict] maps [d] to
    [hasIndices]: ["/a/d"] is rejected with the flag error. *)
Theorem flag_d_rejected RegExp nanoid :
  parse RegExp nanoid (js "/a/d")
  = Val (RError "Invalid regular expression flags") /\
  flagDict "d" = Some hasIndices.
Proof. split; by vm_compute. Qed.

(** C6 (defect in the code).  The specification says that the name of a
    named group is the text between [<] and the matching [>].  [eat]
    matches greedily up to the last [>] of the line: for
    ["/(?<a>x)(?<b>y)/"] the first group is named ["a>x)(?<b"], the cursor
    jumps past the second group's name, and the second group is never
    opened. *)
Theorem group_name_runs_to_last_angle RegExp nanoid :
  RegExp (js "(?<a>x)(?<b>y)") [] = None ->
  parse RegExp nanoid (js "/(?<a>x)(?<b>y)/")
  = Val (ROk {| body := [Group (nanoid 0) (namedCapturing "a>x)(?<b") [] None];
                flags := [] |}).
Proof. intros H. run_accepted H. by vm_compute. Qed.

Lemma group_name_runs_to_last_angle_witness :
  accept_all (js "(?<a>x)(?<b>y)") [] = None /\
  parse accept_all ids (js "/(?<a>x)(?<b>y)/")
  = Val (ROk {| body := [Group "0" (namedCapturing "a>x)(?<b") [] None];
                flags := [] |}).
Proof.
  split; [by vm_compute|].
  apply (group_name_runs_to_last_angle accept_all ids). by vm_compute.
Defined.

(** C7 (defect in the code).  The specification says that the counter
    moves once per capturing group, in the order of the opening
    parentheses, so that in ["/(a)*(b)(c)/"] the groups are numbered 1, 2
    and 3.  After [consumeQuantifier] has moved the cursor past the [*],
    the loop of [consume] advances once more and steps over the
    parenthesis that opens [(b)]: that group is never opened and gets no
    number, and [(c)], the third capturing group of the literal, is
    numbered 2. *)
Theorem group_after_quantifier_not_numbered RegExp nanoid :
  RegExp (js "(a)*(b)(c)") [] = None ->
  parse RegExp nanoid (js "/(a)*(b)(c)/")
  = Val (ROk {| body := [Group (nanoid 0) (capturing "1") []
                           (Some (fixed q_star 0 Infinity));
                         Group (nanoid 1) (capturing "2") [] None];
                flags := [] |}).
Proof. intros H. run_accepted H. by vm_compute. Qed.

Lemma group_after_quantifier_not_numbered_witness :
  accept_all (js "(a)*(b)(c)") [] = None /\
  parse accept_all ids (js "/(a)*(b)(c)/")
  = Val (ROk {| body := [Group "0" (capturing "1") []
                           (Some (fixed q_star 0 Infinity));
                         Group "1" (capturing "2") [] None];
                flags := [] |}).
Proof.
  split; [by vm_compute|].
  apply (group_after_quantifier_not_numbered accept_all ids). by vm_compute.
Defined.

(** The groups that the parser does open are numbered without a gap: the
    counter starts at 1; the capture names of a returned tree, read in the
    order of the nodes, are ["1"], ["2"], ... whatever non-capturing and
    named groups stand between them; the head of [onGroup] gives a
    capturing group the current value of the counter and moves it by one,
    and leaves it alone for a non-capturing or a named group;
    ["/(a)(b(c))/"] is numbered 1, 2, 3. *)
Lemma capture_numbering RegExp nanoid :
  (forall s, groupIndex (new_Parser s) = 1) /\
  (forall s t,
      parse RegExp nanoid s = Val (ROk t) ->
      exists k, flat_map capture_names (body t)
                = map number_to_string (seq 1 k)) /\
  (forall p,
      cursor_inv p ->
      exists g p',
        read_group p = Val (g, p') /\
        match g with
        | capturing name =>
            name = number_to_string (groupIndex p) /\
            groupIndex p' = groupIndex p + 1
        | nonCapturing | namedCapturing _ => groupIndex p' = groupIndex p
        end) /\
  (RegExp (js "(a)(b(c))") [] = None ->
   exists t,
     parse RegExp nanoid (js "/(a)(b(c))/") = Val (ROk t) /\
     flat_map capture_names (body t) = ["1"; "2"; "3"]%string).
Proof.
  split; [done|]. split; [|split].
  - intros s t Hp. pose proof (parse_spec RegExp nanoid s) as H.
    destruct (validate RegExp (new_Parser s)) as [[[|] p1]| |]; try done;
      [|congruence].
    destruct H as [H | (t' & p' & H & _ & Ht & Hb)]; [congruence|].
    rewrite Hp in H. injection H as <-.
    exists (groupIndex p' - 1). rewrite Hb.
    rewrite flat_leaf_capture_names by apply Ht. apply Ht.
  - intros p Hc.
    destruct (read_group_spec p Hc) as (g & i & n & Hr & _ & Hg).
    exists g, (set_groupIndex n (set_index i p)). split; [done|].
    by destruct g.
  - intros H. run_accepted H.
    eexists. split; [by vm_compute | by vm_compute].
Qed.

Lemma capture_numbering_witness :
  accept_all (js "(a)(b(c))") [] = None /\
  (exists t,
      parse accept_all ids (js "/(a)(b(c))/") = Val (ROk t) /\
      flat_map capture_names (body t) = ["1"; "2"; "3"]%string) /\
  (exists k,
      flat_map capture_names
        [Group "0" nonCapturing [] None; Group "1" (capturing "1") [] None;
         Group "2" (namedCapturing "n") [] None;
         Group "3" (capturing "2") [] None]
      = map number_to_string (seq 1 k)).
Proof.
  split; [by vm_compute|]. split.
  - apply (proj2 (proj2 (proj2 (capture_numbering accept_all ids)))).
    by vm_compute.
  - apply (proj1 (proj2 (capture_numbering accept_all ids))
             (js "/(?:x)(a)(?<n>y)(b)/")
             {| body := [Group "0" nonCapturing [] None;
                         Group "1" (capturing "1") [] None;
                         Group "2" (namedCapturing "n") [] None;
                         Group "3" (capturing "2") [] None];
                flags := [] |}).
    by vm_compute.
Defined.


(** The constructor trims its argument before anything looks at the
    delimiters: a literal that is accepted stays accepted with white space
    put in front of it, although the text then starts with a blank. *)
Lemma leading_space_accepted RegExp nanoid :
  RegExp (js "a") [] = None ->
  parse RegExp nanoid (js " /a/") = Val (ROk {| body := []; flags := [] |}).
Proof. intros H. run_accepted H. by vm_compute. Qed.

(** C9, as stated, fails: [" /a/"] does not start with ["/"] at offset 0
    and is not answered with an error. *)
Lemma delimiter_errors_counterexample :
  js " /a/" !! 0 <> Some "/"%char /\
  parse accept_all ids (js " /a/") = Val (ROk {| body := []; flags := [] |}) /\
  parse accept_all ids (js " /a/") <> Val (RError "Invalid regular expression").
Proof. split; [|split]; vm_compute; congruence. Qed.

(** C9 (amended).  A literal that, once trimmed of surrounding white space
    as the constructor does, does not start with ["/"] at offset 0, or has
    no second ["/"] after it, is answered with the error message
    ["Invalid regular expression"]; and whenever [parse] answers with an
    error, the answer is a message alone, one of
    ["Invalid regular expression"], ["Invalid regular expression flags"]
    and the message thrown by [RegExp] for the body and flags of the
    literal. *)
Theorem delimiter_errors RegExp nanoid s :
  (trim s !! 0 <> Some "/"%char \/ "/"%char ∉ drop 1 (trim s) ->
   parse RegExp nanoid s = Val (RError "Invalid regular expression")) /\
  (forall r,
      parse RegExp nanoid s = Val r ->
      match r with
      | RError m =>
          m = "Invalid regular expression" \/
          m = "Invalid regular expression flags" \/
          RegExp (literal_body (trim s)) (flag_letters (trim s)) = Some m
      | ROk _ => exists p1, validate RegExp (new_Parser s) = Val (true, p1)
      end).
Proof.
  pose proof (parse_spec RegExp nanoid s) as H.
  pose proof (validate_spec RegExp (new_Parser s)) as Hs.
  destruct (validate RegExp (new_Parser s)) as [[[|] p1]| |]; try done.
  - destruct Hs as (H0 & Hclose & _). split.
    + intros [Hn | Hn]; done.
    + intros r Hr.
      destruct H as [H | (t & _ & H & _)]; [congruence|].
      rewrite Hr in H. injection H as ->. by exists p1.
  - rewrite H. split.
    + intros Hbad.
      destruct Hs as [[-> _] | [(_ & H0 & Hclose & _) | (H0 & Hclose & _)]];
        [done | |]; destruct Hbad; done.
    + intros r [= <-].
      destruct Hs as [[-> _] | [[-> _] | (_ & _ & _ & Hm)]]; auto.
Qed.

Lemma delimiter_errors_witness :
  (trim (js "ab/") !! 0 <> Some "/"%char \/
   "/"%char ∉ drop 1 (trim (js "ab/"))) /\
  parse accept_all ids (js "ab/") = Val (RError "Invalid regular expression").
Proof.
  assert (trim (js "ab/") !! 0 <> Some "/"%char \/
          "/"%char ∉ drop 1 (trim (js "ab/"))) as Hbad.
  { left. vm_compute. discriminate. }
  split; [exact Hbad|].
  exact (proj1 (delimiter_errors accept_all ids (js "ab/")) Hbad).
Defined.

(** C10.  White space added before or after the literal changes nothing:
    the input is trimmed by the constructor, so [parse] takes the same
    branch and gives the same result, up to the ids generated for the
    groups (equal results from equal id supplies, equal results with the
    ids blanked from any two supplies). *)
Theorem surrounding_space_ignored RegExp nanoid nanoid' s w1 w2 :
  forallb is_space w1 = true -> forallb is_space w2 = true ->
  parse RegExp nanoid (w1 ++ s ++ w2) = parse RegExp nanoid s /\
  erase_result (parse RegExp nanoid (w1 ++ s ++ w2))
  = erase_result (parse RegExp nanoid' s).
Proof.
  intros H1 H2.
  assert (parse RegExp nanoid (w1 ++ s ++ w2) = parse RegExp nanoid s) as E.
  { unfold parse, new_Parser. by rewrite trim_spaces. }
  split; [done|]. rewrite E. apply parse_erase.
Qed.

Lemma surrounding_space_ignored_witness :
  forallb is_space (js "  ") = true /\
  forallb is_space [" "; "010"; "009"]%char = true /\
  erase_result
    (parse accept_all ids (js "  " ++ js "/(a)+/g" ++ [" "; "010"; "009"]%char))
  = erase_result (parse accept_all (fun _ => "x") (js "/(a)+/g")).
Proof.
  assert (forallb is_space (js "  ") = true) as H1 by (by vm_compute).
  assert (forallb is_space [" "; "010"; "009"]%char = true) as H2
    by (by vm_compute).
  split; [exact H1|]. split; [exact H2|].
  exact (proj2 (surrounding_space_ignored accept_all ids (fun _ => "x")
                  (js "/(a)+/g") (js "  ") [" "; "010"; "009"]%char H1 H2)).
Defined.

(* ===================================================================== *)
(** ** Further properties of the parser *)

(** *** The loop of [consume] ends *)

Lemma bind_fuel {A B} (m m' : M A) (k k' : A -> M B) p :
  (m p <> Diverge -> m' p = m p) ->
  (forall a p', m p = Val (a, p') -> k a p' <> Diverge -> k' a p' = k a p') ->
  bind m k p <> Diverge -> bind m' k' p = bind m k p.
Proof.
  unfold bind. intros Hm Hk Hnd.
  destruct (m p) as [[a p']| |] eqn:E; [| |done].
  - rewrite Hm by done. by apply Hk.
  - by rewrite Hm.
Qed.

Lemma onGroup_fuel nanoid (c c' : ascii -> M unit) p :
  (forall ep p', c ep p' <> Diverge -> c' ep p' = c ep p') ->
  onGroup nanoid c p <> Diverge -> onGroup nanoid c' p = onGroup nanoid c p.
Proof.
  intros Hc. unfold onGroup.
  apply bind_fuel; [done|]. intros _ p1 _.
  apply bind_fuel; [done|]. intros g p2 _.
  apply bind_fuel; [done|]. intros a p3 _.
  apply bind_fuel; [done|]. intros _ p4 _.
  apply bind_fuel; [apply Hc | done].
Qed.

(** Iterations granted beyond those the loop uses change nothing. *)
Lemma consume_fuel nanoid fuel fuel' endPoint p :
  fuel <= fuel' -> consume nanoid fuel endPoint p <> Diverge ->
  consume nanoid fuel' endPoint p = consume nanoid fuel endPoint p.
Proof.
  revert fuel' endPoint p.
  induction fuel as [|fuel IH]; intros fuel' endPoint p Hle; [done|].
  destruct fuel' as [|fuel']; [lia|]. simpl.
  apply bind_fuel; [done|]. intros c p1 _.
  destruct (is_char endPoint c); [done|].
  apply bind_fuel.
  - destruct (is_char "{" c || is_char "?" c || is_char "*" c || is_char "+" c);
      [done|].
    destruct (is_char "(" c); [|done].
    apply onGroup_fuel. intros ep p'. apply IH. lia.
  - intros _ p2 _. apply bind_fuel; [done|]. intros more p3 _.
    destruct more; [|done]. apply IH. lia.
Qed.

Lemma onRegex_fuel nanoid fuel fuel' p :
  fuel <= fuel' -> onRegex nanoid fuel p <> Diverge ->
  onRegex nanoid fuel' p = onRegex nanoid fuel p.
Proof.
  intros Hle. unfold onRegex, onRegexBody.
  apply bind_fuel; [done|]. intros _ p1 _.
  apply bind_fuel; [|done].
  apply bind_fuel; [done|]. intros _ p2 _. by apply consume_fuel.
Qed.

(** X1.  The loop of [consume] ends on every literal that passes
    validation: [parse] never runs forever, and granting the loop more
    iterations than the literal has characters does not change the
    result. *)
Theorem parse_loop_ends RegExp nanoid s fuel :
  length (trim s) <= fuel ->
  parse RegExp nanoid s <> Diverge /\
  parse_fuel RegExp nanoid fuel s = parse RegExp nanoid s.
Proof.
  intros Hle. pose proof (parse_terminates RegExp nanoid s) as Hnd.
  split; [done|].
  pose proof (validate_spec RegExp (new_Parser s)) as Hs.
  unfold parse_fuel, parse, Parser_parse_fuel, Parser_parse in *.
  destruct (validate RegExp (new_Parser s)) as [[[|] p1]| |]; try done.
  destruct Hs as (_ & _ & _ & _ & ->). cbn [regex set_flagSet new_Parser] in *.
  set (p1 := set_flagSet _ _) in *.
  rewrite (onRegex_fuel nanoid (length (trim s)) fuel p1 Hle); [done|].
  intros E. by rewrite E in Hnd.
Qed.

Lemma parse_loop_ends_witness :
  length (trim (js "/(a)(b(c))+/g")) <= 1000 /\
  parse_fuel accept_all ids 1000 (js "/(a)(b(c))+/g")
  = parse accept_all ids (js "/(a)(b(c))+/g").
Proof.
  assert (length (trim (js "/(a)(b(c))+/g")) <= 1000) as H
    by (vm_compute; lia).
  split; [exact H|].
  exact (proj2 (parse_loop_ends accept_all ids (js "/(a)(b(c))+/g") 1000 H)).
Defined.

(** *** Properties of the heap that a run keeps *)

Lemma hoare_ret {A} (I : Parser -> Prop) (a : A) : hoare I (ret a) (fun _ => I).
Proof. by intros p a' p' HI [= <- <-]. Qed.

Lemma hoare_bind {A B} (P : Parser -> Prop) (Q : A -> Parser -> Prop)
    (R : B -> Parser -> Prop) (m : M A) (k : A -> M B) :
  hoare P m Q -> (forall a, hoare (Q a) (k a) R) -> hoare P (bind m k) R.
Proof.
  intros Hm Hk p b p' HP. unfold bind.
  destruct (m p) as [[a p1]| |] eqn:E; [|done..].
  intros Hrun. eapply Hk; [|exact Hrun]. by eapply Hm.
Qed.

Lemma hoare_reads {A} (I : Parser -> Prop) (f : Parser -> A) :
  hoare I (reads f) (fun _ => I).
Proof. by intros p a p' HI [= <- <-]. Qed.

Lemma hoare_modify (I : Parser -> Prop) (f : Parser -> Parser) :
  (forall p, I p -> I (f p)) -> hoare I (modify f) (fun _ => I).
Proof. intros Hf p a p' HI [= <- <-]. by apply Hf. Qed.

Lemma hoare_advance (I : Parser -> Prop) k :
  heap_property I -> hoare I (advance k) (fun _ => I).
Proof.
  intros HI p b p' Hp.
  destruct (advance_cases k p) as [[_ ->]|[_ ->]]; intros [= <- <-];
    [done | by apply HI].
Qed.

Ltac keeps HI :=
  repeat first
    [ eassumption
    | match goal with H : forall _, hoare _ _ _ |- _ => eapply H end
    | apply hoare_ret | apply hoare_reads | apply (hoare_advance _ _ HI)
    | apply hoare_modify; intros ? ?; by apply HI
    | eapply hoare_bind; [|intros ?]
    | match goal with
      | |- hoare _ (if ?b then _ else _) _ => destruct b
      | |- hoare _ (match ?x with _ => _ end) _ => destruct x
      end ].

Lemma read_quantifier_keeps I :
  heap_property I -> hoare I read_quantifier (fun _ => I).
Proof. intros HI. unfold read_quantifier. keeps HI. Qed.

Lemma read_group_keeps I :
  heap_property I -> hoare I read_group (fun _ => I).
Proof. intros HI. unfold read_group. keeps HI. Qed.

Lemma consume_keeps nanoid I :
  heap_property I ->
  hoare I consumeQuantifier (fun _ => I) ->
  (forall g, hoare I (new_group nanoid g) (fun _ => I)) ->
  (forall a, hoare I (appendChild a) (fun _ => I)) ->
  forall fuel endPoint, hoare I (consume nanoid fuel endPoint) (fun _ => I).
Proof.
  intros HI Hq Hnew Happ fuel.
  induction fuel as [|fuel IH]; intros endPoint; simpl; [done|].
  pose proof (read_group_keeps I HI).
  unfold onGroup. keeps HI.
Qed.

Lemma onRegex_keeps nanoid I :
  heap_property I ->
  hoare I consumeQuantifier (fun _ => I) ->
  (forall g, hoare I (new_group nanoid g) (fun _ => I)) ->
  (forall a, hoare I (appendChild a) (fun _ => I)) ->
  forall fuel, hoare I (onRegex nanoid fuel) (fun _ => I).
Proof.
  intros HI Hq Hnew Happ fuel.
  pose proof (consume_keeps nanoid I HI Hq Hnew Happ fuel "/").
  unfold onRegex, onRegexBody, onFlags. keeps HI.
Qed.

Lemma Forall_omap_insert {B} (P : B -> Prop) (f : obj -> option B)
    (h : list obj) a o :
  Forall P (omap f h) -> (forall y, f o = Some y -> P y) ->
  Forall P (omap f (<[a:=o]> h)).
Proof.
  revert a. induction h as [|x h IH]; intros a Hh Ho; [done|].
  destruct a as [|a]; cbn in *.
  - destruct (f x); [apply Forall_cons in Hh as [_ Hh]|];
      (destruct (f o) as [y|]; [constructor; auto | done]).
  - destruct (f x); [apply Forall_cons in Hh as [? Hh]; constructor; auto |].
    by apply IH.
Qed.

Lemma quantifier_ok_lazy q : quantifier_ok q = true -> quantifier_ok (lazy q) = true.
Proof. done. Qed.

Lemma quantifier_ok_ordered q : quantifier_ok q = true -> bounds_ordered q.
Proof.
  unfold quantifier_ok, bounds_ordered.
  destruct (q_kind q), (q_min q) as [n|], (q_max q) as [m|]; try done.
  - intros [->%N.eqb_eq ->%N.eqb_eq]%andb_prop. lia.
  - intros ->%N.eqb_eq. lia.
Qed.

(** Each quantifier recognised at the cursor is greedy and has the bounds
    of its kind. *)
Lemma read_quantifier_ok p q p' :
  read_quantifier p = Val (Some q, p') ->
  quantifier_ok q = true /\ q_greedy q = true.
Proof.
  unfold read_quantifier. unfold bind at 1. unfold reads at 1.
  assert (forall k (q0 : Quantifier),
             (_ <- advance k ;; ret (Some q0)) p = Val (Some q, p') -> q = q0) as Hadv.
  { intros k q0. unfold bind, ret.
    destruct (advance_cases k p) as [[? ->]|[? ->]]; congruence. }
  destruct (is_char "?" (cur 0 p)); [by intros ->%Hadv|].
  destruct (is_char "*" (cur 0 p)); [by intros ->%Hadv|].
  destruct (is_char "+" (cur 0 p)); [by intros ->%Hadv|].
  destruct (is_char "{" (cur 0 p)); [|done].
  unfold bind at 1. unfold reads at 1.
  destruct (eat digits [] 1 p) as [[|d min]|] eqn:Emin; try done.
  unfold bind at 1. unfold reads at 1.
  destruct (is_char "}" (cur (length (d :: min) + 1) p)) eqn:E1.
  { intros ->%Hadv. split; [|done]. unfold quantifier_ok. simpl.
    destruct (parseInt (d :: min)); [apply N.eqb_refl | done]. }
  unfold bind at 1. unfold reads at 1. unfold bind at 1. unfold reads at 1.
  destruct (truthy (eat (literal (js ",")) [] (length (d :: min) + 1) p)
            && is_char "}" (cur (length (d :: min) + 2) p)) eqn:E2.
  { intros ->%Hadv. split; [|done]. unfold quantifier_ok. simpl.
    by destruct (parseInt (d :: min)). }
  unfold bind at 1. unfold reads at 1. rewrite Emin.
  unfold bind at 1. unfold reads at 1. rewrite E1. done.
Qed.

Lemma quantifiers_inv_heap_property : heap_property quantifiers_inv.
Proof. by constructor. Qed.

Lemma attach_quantifier_keeps_quantifiers q :
  hoare (fun p => quantifiers_inv p /\ quantifier_ok q = true)
        (attach_quantifier q) (fun _ => quantifiers_inv).
Proof.
  intros p u p' [HI Hq]. unfold attach_quantifier.
  destruct (prev p) as [a|]; [|done].
  destruct (heap p !! a) as [[v q0|i k cs q0|bs|cs]|] eqn:E; try done;
    intros [= <- <-]; try done;
    unfold quantifiers_inv; simpl; apply Forall_omap_insert; try done;
    by intros y [= <-].
Qed.

Lemma consumeQuantifier_keeps_quantifiers :
  hoare quantifiers_inv consumeQuantifier (fun _ => quantifiers_inv).
Proof.
  pose proof quantifiers_inv_heap_property as HI.
  unfold consumeQuantifier.
  eapply (hoare_bind _ (fun q p => quantifiers_inv p /\
                          forall q', q = Some q' -> quantifier_ok q' = true)).
  { intros p q p' Hp Hrun. split.
    - by eapply (read_quantifier_keeps _ HI).
    - intros q' ->. by eapply read_quantifier_ok. }
  intros [q|]; [|by intros p b p' [Hp _] [= <- <-]].
  eapply (hoare_bind _ (fun _ p => quantifiers_inv p /\ quantifier_ok q = true)).
  { intros p c p' [Hp Hq] Hrun. injection Hrun as _ <-. auto. }
  intros c.
  eapply (hoare_bind _ (fun q' p => quantifiers_inv p /\ quantifier_ok q' = true)).
  { destruct (is_char "?" c).
    - intros p q' p' [Hp Hq]. unfold bind, ret.
      destruct (advance_cases 1 p) as [[_ ->]|[_ ->]]; intros [= <- <-];
        split; auto using quantifier_ok_lazy.
    - by intros p q' p' [Hp Hq] [= <- <-]. }
  intros q'. eapply hoare_bind; [apply attach_quantifier_keeps_quantifiers|].
  intros ?. apply hoare_ret.
Qed.

Lemma new_group_keeps_quantifiers nanoid g :
  hoare quantifiers_inv (new_group nanoid g) (fun _ => quantifiers_inv).
Proof.
  intros p a p' HI [= <- <-]. unfold quantifiers_inv in *. simpl.
  rewrite omap_app. simpl. by rewrite app_nil_r.
Qed.

Lemma appendChild_omap {B} (f : obj -> option B) a p u p' :
  (forall i k cs cs' q, f (group_obj i k cs q) = f (group_obj i k cs' q)) ->
  (forall o, match o with
             | choice_obj _ | lookAround_obj _ => f o = None
             | _ => True
             end) ->
  appendChild a p = Val (u, p') ->
  omap f (heap p') = omap f (heap p) /\ length (heap p') = length (heap p) /\
  nanoid_calls p' = nanoid_calls p.
Proof.
  intros Hg Ho. unfold appendChild.
  destruct (parent p) as [[|b]|]; [by intros [= <- <-] | | done].
  destruct (heap p !! b) as [[v q0|i k cs q0|bs|cs]|] eqn:E; try done.
  - by intros [= <- <-].
  - intros [= <- <-]. simpl. rewrite length_insert.
    by rewrite (omap_insert_same _ _ _ _ _ E).
  - destruct (last bs); [|done]. intros [= <- <-]. simpl.
    rewrite length_insert. rewrite (omap_insert_same _ _ _ _ _ E); [done|].
    by rewrite (Ho (choice_obj bs)), (Ho (choice_obj _)).
  - intros [= <- <-]. simpl. rewrite length_insert.
    rewrite (omap_insert_same _ _ _ _ _ E); [done|].
    by rewrite (Ho (lookAround_obj cs)), (Ho (lookAround_obj _)).
Qed.

Lemma appendChild_keeps_quantifiers a :
  hoare quantifiers_inv (appendChild a) (fun _ => quantifiers_inv).
Proof.
  intros p u p' HI Hrun. unfold quantifiers_inv in *.
  apply (appendChild_omap obj_quantifier) in Hrun as (-> & _); try done.
  by intros [].
Qed.

Section Ids.

Variable nanoid : nat -> string.

Lemma ids_inv_heap_property : heap_property (ids_inv nanoid).
Proof. by constructor. Qed.

Lemma attach_quantifier_keeps_ids q :
  hoare (ids_inv nanoid) (attach_quantifier q) (fun _ => ids_inv nanoid).
Proof.
  intros p u p' [Hn Hi]. unfold attach_quantifier.
  destruct (prev p) as [a|]; [|done].
  destruct (heap p !! a) as [[v q0|i k cs q0|bs|cs]|] eqn:E; try done;
    intros [= <- <-]; try done;
    unfold ids_inv; simpl; rewrite length_insert;
    by rewrite (omap_insert_same _ _ _ _ _ E).
Qed.

Lemma consumeQuantifier_keeps_ids :
  hoare (ids_inv nanoid) consumeQuantifier (fun _ => ids_inv nanoid).
Proof.
  pose proof ids_inv_heap_property as HI.
  pose proof (read_quantifier_keeps _ HI).
  pose proof attach_quantifier_keeps_ids.
  unfold consumeQuantifier. keeps HI.
Qed.

Lemma new_group_keeps_ids g :
  hoare (ids_inv nanoid) (new_group nanoid g) (fun _ => ids_inv nanoid).
Proof.
  intros p a p' [Hn Hi] [= <- <-]. unfold ids_inv. simpl.
  rewrite length_app, omap_app, Hi, Hn. simpl. split; [done|].
  replace (length (heap p) + 1) with (S (length (heap p))) by lia.
  by rewrite seq_S, map_app.
Qed.

Lemma appendChild_keeps_ids a :
  hoare (ids_inv nanoid) (appendChild a) (fun _ => ids_inv nanoid).
Proof.
  intros p u p' [Hn Hi] Hrun. unfold ids_inv.
  apply (appendChild_omap obj_id) in Hrun as (-> & -> & ->); try done.
  by intros [].
Qed.

End Ids.

(** *** Returned trees *)

(** A returned tree is the heap left by [onRegex] on the validated
    parser. *)
Lemma parse_run RegExp nanoid s t :
  parse RegExp nanoid s = Val (ROk t) ->
  exists p1 p',
    validate RegExp (new_Parser s) = Val (true, p1) /\
    heap p1 = [] /\ nanoid_calls p1 = 0 /\
    onRegex nanoid (length (regex p1)) p1 = Val (tt, p') /\
    tree_inv p' /\ t = ast p'.
Proof.
  unfold parse, Parser_parse.
  pose proof (validate_spec RegExp (new_Parser s)) as Hs.
  destruct (validate RegExp (new_Parser s)) as [[[|] p1]| |]; try done.
  destruct Hs as (H0 & Hclose & Hall & _ & ->).
  destruct (validated_safe_end _ H0 Hclose Hall) as [Hlen He].
  set (p1 := set_flagSet _ _).
  pose proof (onRegex_post nanoid p1 eq_refl eq_refl eq_refl eq_refl Hlen He) as H.
  destruct (onRegex nanoid (length (regex p1)) p1) as [[[] p2]| |] eqn:E;
    try done.
  intros [= <-]. exists p1, p2. by destruct H.
Qed.

Lemma flat_leaf_length (h : list obj) :
  Forall (fun o => is_leaf_group o = true) h ->
  length (flat_map leaf_node h) = length h.
Proof.
  induction 1 as [|o h Ho _ IH]; [done|].
  simpl. rewrite length_app, IH. by destruct o as [| i k [|] qo | |].
Qed.

Lemma flat_leaf_quantifiers (h : list obj) :
  Forall (fun o => is_leaf_group o = true) h ->
  flat_map quantifiers (flat_map leaf_node h) = omap obj_quantifier h.
Proof.
  induction 1 as [|o h Ho _ IH]; [done|].
  simpl. rewrite flat_map_app, IH.
  destruct o as [| i k [|] qo | |]; try done. by destruct qo.
Qed.

Lemma flat_leaf_ids (h : list obj) :
  Forall (fun o => is_leaf_group o = true) h ->
  flat_map group_ids (flat_map leaf_node h) = omap obj_id h.
Proof.
  induction 1 as [|o h Ho _ IH]; [done|].
  simpl. rewrite flat_map_app, IH.
  by destruct o as [| i k [|] qo | |].
Qed.

(** X2.  Whatever the literal, a returned tree is a flat list of childless
    groups: [consume] builds no Character, Choice or lookaround node, and
    since [this.parent] stays the root no group is ever put inside
    another. *)
Theorem parse_tree_is_flat RegExp nanoid s t :
  parse RegExp nanoid s = Val (ROk t) ->
  Forall (fun node => exists i k q, node = Group i k [] q) (body t).
Proof.
  intros (p1 & p' & _ & _ & _ & _ & Ht & ->)%parse_run.
  rewrite (ast_body_flat p' Ht). apply flat_leaf_shape.
Qed.

Lemma parse_tree_is_flat_witness :
  parse accept_all ids (js "/(a(?:b(?<n>c)))d/")
  = Val (ROk {| body := [Group "0" (capturing "1") [] None;
                         Group "1" nonCapturing [] None;
                         Group "2" (namedCapturing "n") [] None];
                flags := [] |}) /\
  Forall (fun node => exists i k q, node = Group i k [] q)
         [Group "0" (capturing "1") [] None;
          Group "1" nonCapturing [] None;
          Group "2" (namedCapturing "n") [] None].
Proof.
  assert (parse accept_all ids (js "/(a(?:b(?<n>c)))d/")
          = Val (ROk {| body := [Group "0" (capturing "1") [] None;
                                 Group "1" nonCapturing [] None;
                                 Group "2" (namedCapturing "n") [] None];
                        flags := [] |})) as H by (by vm_compute).
  split; [exact H|].
  exact (parse_tree_is_flat accept_all ids _ _ H).
Defined.

(** X3.  [nanoid] is called once per group, in the order in which the
    groups are opened: the ids of a returned tree are the first results of
    [nanoid], in order, so they are pairwise distinct whenever [nanoid]
    never repeats itself. *)
Theorem group_ids_in_call_order RegExp nanoid s t :
  parse RegExp nanoid s = Val (ROk t) ->
  flat_map group_ids (body t) = map nanoid (seq 0 (length (body t))) /\
  ((forall i j, nanoid i = nanoid j -> i = j) ->
   NoDup (flat_map group_ids (body t))).
Proof.
  intros (p1 & p' & _ & Hh & Hn & Hrun & Ht & ->)%parse_run.
  assert (ids_inv nanoid p') as [_ Hids].
  { eapply (onRegex_keeps nanoid (ids_inv nanoid)); [| | | | |exact Hrun];
      auto using ids_inv_heap_property, consumeQuantifier_keeps_ids,
                 new_group_keeps_ids, appendChild_keeps_ids.
    unfold ids_inv. by rewrite Hh, Hn. }
  rewrite (ast_body_flat p' Ht).
  rewrite flat_leaf_ids, flat_leaf_length by apply Ht.
  split; [done|]. intros Hinj. rewrite Hids.
  change (NoDup (nanoid <$> seq 0 (length (heap p')))).
  apply NoDup_fmap_2; [exact Hinj | apply NoDup_seq].
Qed.

Lemma group_ids_in_call_order_witness :
  parse accept_all ids (js "/(a)(b(c))/")
  = Val (ROk {| body := [Group "0" (capturing "1") [] None;
                         Group "1" (capturing "2") [] None;
                         Group "2" (capturing "3") [] None];
                flags := [] |}) /\
  flat_map group_ids [Group "0" (capturing "1") [] None;
                      Group "1" (capturing "2") [] None;
                      Group "2" (capturing "3") [] None]
  = map ids (seq 0 3).
Proof.
  assert (parse accept_all ids (js "/(a)(b(c))/")
          = Val (ROk {| body := [Group "0" (capturing "1") [] None;
                                 Group "1" (capturing "2") [] None;
                                 Group "2" (capturing "3") [] None];
                        flags := [] |})) as H by (by vm_compute).
  split; [exact H|].
  exact (proj1 (group_ids_in_call_order accept_all ids _ _ H)).
Defined.

(** X4.  Every quantifier of a returned tree has the bounds of its kind
    ([?] is 0..1, [*] is 0.., [+] is 1.., a custom one is n..n or n..), and
    so [min <= max]; no custom quantifier with two different bounds is ever
    attached. *)
Theorem attached_quantifiers_ok RegExp nanoid s t :
  parse RegExp nanoid s = Val (ROk t) ->
  Forall (fun q => quantifier_ok q = true /\ bounds_ordered q)
         (flat_map quantifiers (body t)).
Proof.
  intros (p1 & p' & _ & Hh & _ & Hrun & Ht & ->)%parse_run.
  assert (quantifiers_inv p') as Hq.
  { eapply (onRegex_keeps nanoid quantifiers_inv); [| | | | |exact Hrun];
      auto using quantifiers_inv_heap_property,
                 consumeQuantifier_keeps_quantifiers,
                 new_group_keeps_quantifiers, appendChild_keeps_quantifiers.
    unfold quantifiers_inv. rewrite Hh. constructor. }
  rewrite (ast_body_flat p' Ht), flat_leaf_quantifiers by apply Ht.
  eapply Forall_impl; [exact Hq|]. simpl.
  auto using quantifier_ok_ordered.
Qed.

Lemma attached_quantifiers_ok_witness :
  parse accept_all ids (js "/(a){3,}?x(b)*/")
  = Val (ROk {| body := [Group "0" (capturing "1") []
                           (Some (lazy (fixed q_custom 3 Infinity)));
                         Group "1" (capturing "2") []
                           (Some (fixed q_star 0 Infinity))];
                flags := [] |}) /\
  Forall (fun q => quantifier_ok q = true /\ bounds_ordered q)
         [lazy (fixed q_custom 3 Infinity); fixed q_star 0 Infinity].
Proof.
  assert (parse accept_all ids (js "/(a){3,}?x(b)*/")
          = Val (ROk {| body := [Group "0" (capturing "1") []
                                   (Some (lazy (fixed q_custom 3 Infinity)));
                                 Group "1" (capturing "2") []
                                   (Some (fixed q_star 0 Infinity))];
                        flags := [] |})) as H by (by vm_compute).
  split; [exact H|].
  exact (attached_quantifiers_ok accept_all ids _ _ H).
Defined.

(** *** Literals without quantifiers *)

Lemma quantifier_free_cur p :
  forallb (fun c => negb (opens_quantifier c)) (regex p) = true ->
  is_char "{" (cur 0 p) || is_char "?" (cur 0 p)
  || is_char "*" (cur 0 p) || is_char "+" (cur 0 p) = false.
Proof.
  intros Hq. unfold cur, is_char.
  destruct (regex p !! (index p + 0)) as [c|] eqn:E; [|done].
  rewrite forallb_forall in Hq.
  specialize (Hq c). rewrite negb_true_iff in Hq. apply Hq.
  apply list_elem_of_In. by eapply list_elem_of_lookup_2.
Qed.

Lemma returns_frame {A} p p1 (r : outcome (A * Parser)) :
  frame p p1 -> returns p1 r -> returns p r.
Proof.
  intros Hf. destruct r as [[a p2]| |]; simpl; [|done..].
  intros (? & ? & ?). eauto using frame_trans.
Qed.

Lemma onGroup_returns nanoid consume p :
  (forall p1, tree_inv p1 -> cursor_inv p1 -> frame p p1 ->
              index p < index p1 -> returns p1 (consume ")"%char p1)) ->
  tree_inv p -> cursor_inv p -> is_char "(" (cur 0 p) = true ->
  returns p (onGroup nanoid consume p).
Proof.
  intros Hrec Ht Hc Hopen. unfold onGroup. unfold bind at 1.
  pose proof (cur_inner p 0 "(" (inv_end _ Hc) Hopen eq_refl) as Hin.
  destruct (advance_cases 1 p) as [[? _]|[_ ->]]; [lia|].
  destruct (moved_cursor p (index p + 1) Hc) as [Hc1 Hf1]; [lia|].
  pose proof (tree_inv_set_index (index p + 1) p Ht) as Ht1.
  set (p1 := set_index (index p + 1) p) in *.
  unfold bind at 1.
  destruct (read_group_spec p1 Hc1) as (g & i & n & -> & Hi & Hg).
  destruct (open_group_inv nanoid g i n p1 Ht1 Hc1 Hi Hg)
    as (p2 & Hopen2 & Ht2 & Hc2 & Hf2 & Hi2).
  unfold bind at 1 in Hopen2. unfold bind at 1.
  destruct (new_group nanoid g (set_groupIndex n (set_index i p1)))
    as [[a p3]| |]; [|done..].
  unfold bind at 1 in Hopen2. unfold bind at 1.
  destruct (appendChild a p3) as [[[] p4]| |]; [|done..].
  injection Hopen2 as -> ->.
  unfold bind at 1.
  assert (frame p p2) as Hf by eauto using frame_trans.
  assert (index p < index p2) as Hlt by (simpl in Hi; lia).
  pose proof (Hrec p2 Ht2 Hc2 Hf Hlt) as H.
  destruct (consume ")"%char p2) as [[[] p5]| |]; [|done..].
  destruct H as (Ht5 & Hc5 & Hf5). simpl.
  split; [by apply tree_inv_set_prev|].
  split; [by destruct Hc5|].
  destruct Hf, Hf5. constructor; simpl; (congruence || lia).
Qed.

(** On a literal without quantifier characters the loop neither throws
    nor runs forever. *)
Lemma consume_returns nanoid fuel endPoint p :
  forallb (fun c => negb (opens_quantifier c)) (regex p) = true ->
  tree_inv p -> cursor_inv p ->
  length (regex p) - index p <= fuel ->
  returns p (consume nanoid fuel endPoint p).
Proof.
  revert endPoint p.
  induction fuel as [|fuel IH]; intros endPoint p Hq Ht Hc Hfuel.
  { destruct Hc. lia. }
  simpl. unfold bind at 1. unfold reads at 1.
  destruct (is_char endPoint (cur 0 p)).
  { simpl. auto using frame_refl. }
  unfold bind at 1.
  assert (forall p1, tree_inv p1 -> cursor_inv p1 -> frame p p1 ->
            returns p ((more <- advance 1 ;;
                        if more then consume nanoid fuel endPoint else ret tt) p1))
    as Hloop.
  { intros p1 Ht1 Hc1 Hf1. unfold bind.
    destruct (advance_cases 1 p1) as [[? ->]|[? ->]]; [by simpl|].
    destruct (moved_cursor p1 (index p1 + 1) Hc1) as [Hc2 Hf2].
    { destruct Hc1. lia. }
    apply (returns_frame _ _ _ (frame_trans _ _ _ Hf1 Hf2)).
    destruct Hf1.
    apply IH; [simpl; congruence | by apply tree_inv_set_index | done |].
    simpl. rewrite fr_regex0. lia. }
  rewrite (quantifier_free_cur p Hq).
  destruct (is_char "(" (cur 0 p)) eqn:Eopen.
  - assert (returns p (onGroup nanoid (consume nanoid fuel) p)) as H.
    { apply onGroup_returns; try done.
      intros p1 Ht1 Hc1 Hf1 Hlt. destruct Hf1.
      apply IH; try done; [congruence | rewrite fr_regex0; lia]. }
    destruct (onGroup nanoid (consume nanoid fuel) p) as [[[] p1]| |]; [|done..].
    destruct H as (? & ? & ?). by apply Hloop.
  - apply Hloop; auto using frame_refl.
Qed.

(** Validation succeeds exactly on the accepted literals. *)
Lemma accepted_validate RegExp s :
  accepted RegExp (trim s) <->
  exists p1, validate RegExp (new_Parser s) = Val (true, p1).
Proof.
  pose proof (validate_spec RegExp (new_Parser s)) as Hs.
  cbn [regex new_Parser] in Hs. unfold accepted.
  destruct (validate RegExp (new_Parser s)) as [[[|] p1]| |]; try done.
  - destruct Hs as (H0 & Hclose & Hall & Hok & _). split; [by exists p1 | done].
  - split; [|by intros [? [=]]].
    intros (H0 & Hclose & Hall & Hok). exfalso.
    destruct Hs as [[_ [?|?]] | [(_ & _ & _ & c & Hc & Hf) | (_ & _ & _ & Hm)]];
      try done.
    + rewrite forallb_forall in Hall.
      rewrite Hall in Hf; [done | by apply list_elem_of_In].
    + congruence.
Qed.

(** After a successful validation, the body parse of a literal without a
    quantifier character returns. *)
Lemma validated_quantifier_free_returns RegExp nanoid s p1 :
  validate RegExp (new_Parser s) = Val (true, p1) ->
  forallb (fun c => negb (opens_quantifier c)) (trim s) = true ->
  exists t, parse RegExp nanoid s = Val (ROk t).
Proof.
  intros Hv Hq.
  pose proof (validate_spec RegExp (new_Parser s)) as Hs.
  unfold parse, Parser_parse.
  destruct (validate RegExp (new_Parser s)) as [[[|] p1']| |]; try done.
  clear Hv p1. cbn [regex new_Parser] in Hs.
  destruct Hs as (H0 & Hclose & Hall & _ & ->).
  destruct (validated_safe_end _ H0 Hclose Hall) as [Hlen He].
  cbn [regex set_flagSet new_Parser].
  set (p1 := set_flagSet _ _).
  unfold onRegex, onRegexBody. unfold bind at 1. unfold modify at 1.
  unfold bind at 1. unfold bind at 1.
  set (p0 := set_parent (Some root_ref) p1).
  destruct (advance_cases 1 p0) as [[? _]|[_ ->]].
  { simpl in *. lia. }
  set (p2 := set_index (index p0 + 1) p0).
  assert (tree_inv p2) as Ht by (constructor; simpl; (done || lia)).
  assert (cursor_inv p2) as Hc by (constructor; simpl; (done || lia)).
  pose proof (consume_returns nanoid (length (trim s)) "/" p2 Hq Ht Hc) as H.
  destruct (consume nanoid (length (trim s)) "/" p2) as [[[] p3]| |].
  - simpl. by eexists.
  - exfalso. apply H. simpl. lia.
  - exfalso. apply H. simpl. lia.
Qed.

(** X5.  A literal that passes validation and contains none of the
    characters [?], [*], [+] and the opening brace is parsed to a tree:
    the TypeError of the body parse needs a quantifier character. *)
Theorem quantifier_free_literal_parses RegExp nanoid s :
  accepted RegExp (trim s) ->
  forallb (fun c => negb (opens_quantifier c)) (trim s) = true ->
  exists t, parse RegExp nanoid s = Val (ROk t).
Proof.
  intros [p1 Hv]%accepted_validate Hq.
  by apply (validated_quantifier_free_returns RegExp nanoid s p1).
Qed.

Lemma quantifier_free_literal_parses_witness :
  accepted accept_all (trim (js " /(a(b))c/gi ")) /\
  forallb (fun c => negb (opens_quantifier c)) (trim (js " /(a(b))c/gi ")) = true /\
  exists t, parse accept_all ids (js " /(a(b))c/gi ") = Val (ROk t).
Proof.
  assert (accepted accept_all (trim (js " /(a(b))c/gi "))) as Ha.
  { repeat split; try by vm_compute.
    apply list_elem_of_In. vm_compute. tauto. }
  assert (forallb (fun c => negb (opens_quantifier c))
                  (trim (js " /(a(b))c/gi ")) = true) as Hq by (by vm_compute).
  split; [exact Ha|]. split; [exact Hq|].
  exact (quantifier_free_literal_parses accept_all ids (js " /(a(b))c/gi ") Ha Hq).
Defined.

(** *** The flags of a returned tree *)




(** *** Validation *)

(** X6.  [parse] answers with an error message exactly for the literals
    that validation does not accept: those that, once trimmed, lack a
    delimiter, carry a character other than a flag letter after the
    closing delimiter, or are refused by [RegExp]. *)
Theorem parse_error_iff_not_accepted RegExp nanoid s :
  (exists m, parse RegExp nanoid s = Val (RError m)) <->
  ~ accepted RegExp (trim s).
Proof.
  pose proof (parse_spec RegExp nanoid s) as H.
  pose proof (validate_spec RegExp (new_Parser s)) as Hs.
  cbn [regex new_Parser] in Hs. unfold accepted.
  destruct (validate RegExp (new_Parser s)) as [[[|] p1]| |]; try done.
  - destruct Hs as (H0 & Hclose & Hall & Hok & _). split.
    + intros [m Hm]. destruct H as [H | (t & _ & H & _)]; congruence.
    + intros Hn. exfalso. by apply Hn.
  - split; [|intros _; by exists (message p1)].
    intros _ (H0 & Hclose & Hall & Hok).
    destruct Hs as [[_ [?|?]] | [(_ & _ & _ & c & Hc & Hf) | (_ & _ & _ & Hm)]];
      try done.
    + rewrite forallb_forall in Hall.
      rewrite Hall in Hf; [done | by apply list_elem_of_In].
    + congruence.
Qed.

(** X7.  The flag letters are checked before [RegExp] is consulted: when
    the trimmed literal has both delimiters and any character other than
    [g i m s u y] after the closing one, the answer is the flag error,
    whatever [RegExp] would say. *)
Theorem unknown_flag_rejected RegExp nanoid s c :
  trim s !! 0 = Some "/"%char -> "/"%char ∈ drop 1 (trim s) ->
  c ∈ flag_letters (trim s) -> c ∉ js "gimsuy" ->
  parse RegExp nanoid s = Val (RError "Invalid regular expression flags").
Proof.
  intros H0 Hclose Hc Hn.
  assert (flag_test c = false) as Hf.
  { destruct (flag_test c) eqn:E; [|done]. by apply flag_test_cases in E. }
  pose proof (parse_spec RegExp nanoid s) as H.
  pose proof (validate_spec RegExp (new_Parser s)) as Hs.
  cbn [regex new_Parser] in Hs.
  assert (forallb flag_test (flag_letters (trim s)) = true -> False) as Hall.
  { intros Hall. rewrite forallb_forall in Hall.
    rewrite Hall in Hf; [done | by apply list_elem_of_In]. }
  destruct (validate RegExp (new_Parser s)) as [[[|] p1]| |]; try done.
  - by destruct Hs as (_ & _ & ?%Hall & _).
  - rewrite H.
    destruct Hs as [[_ [?|?]] | [(-> & _) | (_ & _ & ?%Hall & _)]]; done.
Qed.

Lemma unknown_flag_rejected_witness :
  trim (js "/[/]/g") !! 0 = Some "/"%char /\
  "/"%char ∈ flag_letters (trim (js "/[/]/g")) /\
  parse accept_all ids (js "/[/]/g")
  = Val (RError "Invalid regular expression flags").
Proof.
  assert ("/"%char ∈ drop 1 (trim (js "/[/]/g"))) as H1.
  { apply list_elem_of_In. vm_compute. tauto. }
  assert ("/"%char ∈ flag_letters (trim (js "/[/]/g"))) as H2.
  { apply list_elem_of_In. vm_compute. tauto. }
  assert ("/"%char ∉ js "gimsuy") as H3.
  { intros H%list_elem_of_In. vm_compute in H. intuition discriminate. }
  split; [by vm_compute|]. split; [exact H2|].
  exact (unknown_flag_rejected accept_all ids (js "/[/]/g") "/"
           eq_refl H1 H2 H3).
Defined.

(** X8.  When the delimiters and the flag letters are in order and
    [RegExp] throws, [parse] answers with the thrown message, unchanged. *)
Theorem oracle_message_verbatim RegExp nanoid s m :
  trim s !! 0 = Some "/"%char -> "/"%char ∈ drop 1 (trim s) ->
  forallb flag_test (flag_letters (trim s)) = true ->
  RegExp (literal_body (trim s)) (flag_letters (trim s)) = Some m ->
  parse RegExp nanoid s = Val (RError m).
Proof.
  intros H0 Hclose Hall Hm.
  pose proof (parse_spec RegExp nanoid s) as H.
  pose proof (validate_spec RegExp (new_Parser s)) as Hs.
  cbn [regex new_Parser] in Hs.
  destruct (validate RegExp (new_Parser s)) as [[[|] p1]| |]; try done.
  - destruct Hs as (_ & _ & _ & ? & _). congruence.
  - rewrite H.
    destruct Hs as [[_ [?|?]] | [(_ & _ & _ & c & Hc & Hf) | (_ & _ & _ & Hm')]];
      try done.
    + rewrite forallb_forall in Hall.
      rewrite Hall in Hf; [done | by apply list_elem_of_In].
    + congruence.
Qed.

Lemma oracle_message_verbatim_witness :
  forallb flag_test (flag_letters (trim (js "/a**/g"))) = true /\
  parse (fun _ _ => Some "Nothing to repeat") ids (js "/a**/g")
  = Val (RError "Nothing to repeat").
Proof.
  assert ("/"%char ∈ drop 1 (trim (js "/a**/g"))) as H1.
  { apply list_elem_of_In. vm_compute. tauto. }
  assert (forallb flag_test (flag_letters (trim (js "/a**/g"))) = true) as H2
    by (by vm_compute).
  split; [exact H2|].
  exact (oracle_message_verbatim (fun _ _ => Some "Nothing to repeat") ids
           (js "/a**/g") "Nothing to repeat" eq_refl H1 H2 eq_refl).
Defined.

(** A literal with both delimiters is its opening delimiter, its body,
    the closing delimiter and the flag letters, in this order, and the
    body contains no ["/"]. *)
Lemma literal_split (s : text) :
  s !! 0 = Some "/"%char -> "/"%char ∈ drop 1 s ->
  s = "/"%char :: literal_body s ++ "/"%char :: flag_letters s /\
  "/"%char ∉ literal_body s.
Proof.
  intros H0 Hclose. unfold literal_body, flag_letters.
  destruct (indexOf_from "/" 1 s) as [e|] eqn:Ee.
  2:{ by apply indexOf_from_None in Ee. }
  apply indexOf_from_spec in Ee as (He1 & He & Hmin).
  destruct s as [|c s']; [done|]. injection H0 as ->.
  destruct e as [|e]; [lia|]. simpl in He.
  unfold slice. simpl. rewrite Nat.sub_0_r.
  replace (e + 1) with (S e) by lia. simpl. split.
  - f_equal. symmetry. by apply take_drop_middle.
  - intros (j & Hj)%list_elem_of_lookup_1.
    pose proof (lookup_lt_Some _ _ _ Hj) as Hlt.
    rewrite length_take in Hlt. rewrite lookup_take_lt in Hj by lia.
    apply (Hmin (S j)); [lia | done].
Qed.

(** X9.  Delimiter detection is not aware of escapes: when the trimmed
    literal is ["/"], a text [body] without ["/"], ["/"] and a rest, the
    pattern is cut at that first inner slash.  A character of the rest
    other than [g i m s u y], a further ["/"] among them, gives the flag
    error whatever [RegExp] says; otherwise [RegExp] is asked about
    exactly [body] and the rest, and its answer decides: the message it
    throws is the answer of [parse], and when it accepts, [parse] reports
    no error. *)
Theorem literal_cut_at_first_slash RegExp nanoid s body rest :
  trim s = "/"%char :: body ++ "/"%char :: rest -> "/"%char ∉ body ->
  (forall c, c ∈ rest -> c ∉ js "gimsuy" ->
     parse RegExp nanoid s = Val (RError "Invalid regular expression flags")) /\
  ((forall c, c ∈ rest -> c ∈ js "gimsuy") ->
     (forall m, RegExp body rest = Some m ->
        parse RegExp nanoid s = Val (RError m)) /\
     (RegExp body rest = None ->
        parse RegExp nanoid s = TypeError \/
        exists t, parse RegExp nanoid s = Val (ROk t))).
Proof.
  intros Hs Hbody.
  pose proof (parse_spec RegExp nanoid s) as H.
  pose proof (validate_spec RegExp (new_Parser s)) as Hv.
  cbn [regex new_Parser] in Hv.
  destruct (literal_parts body rest Hbody) as [Hb Hr].
  rewrite Hs, Hb, Hr in Hv. clear Hb Hr.
  assert (("/"%char :: body ++ "/"%char :: rest) !! 0 = Some "/"%char) as H0
    by done.
  assert ("/"%char ∈ drop 1 ("/"%char :: body ++ "/"%char :: rest)) as Hclose.
  { simpl. rewrite drop_0. apply elem_of_app. right. left. }
  assert (forallb flag_test rest = true <->
          forall c, c ∈ rest -> c ∈ js "gimsuy") as Hall.
  { rewrite forallb_forall. unfold flag_test. split.
    - intros Hf c Hc. apply existsb_eqb_elem, Hf. by apply list_elem_of_In.
    - intros Hf c Hc. apply existsb_eqb_elem, Hf. by apply list_elem_of_In. }
  split.
  - intros c Hc Hn.
    assert (forallb flag_test rest = true -> False) as Hno.
    { intros Hf. apply Hn. by apply (proj1 Hall Hf). }
    destruct (validate RegExp (new_Parser s)) as [[[|] p1]| |]; try done.
    + by destruct Hv as (_ & _ & ?%Hno & _).
    + rewrite H.
      destruct Hv as [[_ [?|?]] | [(-> & _) | (_ & _ & ?%Hno & _)]]; done.
  - intros Hf. apply Hall in Hf.
    assert ((exists c, c ∈ rest /\ flag_test c = false) -> False) as Hno.
    { intros (c & Hc & Hfc). rewrite forallb_forall in Hf.
      rewrite Hf in Hfc; [done | by apply list_elem_of_In]. }
    split.
    + intros m Hm.
      destruct (validate RegExp (new_Parser s)) as [[[|] p1]| |]; try done.
      * destruct Hv as (_ & _ & _ & ? & _). congruence.
      * rewrite H.
        destruct Hv as [[_ [?|?]] | [(_ & _ & _ & ?%Hno) | (_ & _ & _ & Hm')]];
          try done.
        congruence.
    + intros Hok.
      destruct (validate RegExp (new_Parser s)) as [[[|] p1]| |]; try done.
      * destruct H as [H | (t & _ & H & _)]; [by left | right; by exists t].
      * exfalso.
        destruct Hv as [[_ [?|?]] | [(_ & _ & _ & ?%Hno) | (_ & _ & _ & Hm')]];
          try done.
        congruence.
Qed.

Lemma literal_cut_at_first_slash_witness :
  trim (js "/[/]/g") = "/"%char :: js "[" ++ "/"%char :: js "]/g" /\
  ("/"%char ∉ js "[") /\
  parse accept_all ids (js "/[/]/g")
  = Val (RError "Invalid regular expression flags") /\
  parse (fun body rest =>
           if bool_decide (body = js "a" /\ rest = js "gi")
           then Some "refused" else None) ids (js "/a/gi")
  = Val (RError "refused").
Proof.
  assert ("/"%char ∉ js "[") as H1.
  { intros H%list_elem_of_In. vm_compute in H. intuition discriminate. }
  assert ("/"%char ∉ js "a") as H2.
  { intros H%list_elem_of_In. vm_compute in H. intuition discriminate. }
  assert ("]"%char ∈ js "]/g") as H3 by left.
  assert ("]"%char ∉ js "gimsuy") as H4.
  { intros H%list_elem_of_In. vm_compute in H. intuition discriminate. }
  assert (forall c, c ∈ js "gi" -> c ∈ js "gimsuy") as H5.
  { intros c Hc%list_elem_of_In. apply list_elem_of_In.
    vm_compute in Hc |- *. tauto. }
  split; [done|]. split; [exact H1|]. split.
  { exact (proj1 (literal_cut_at_first_slash accept_all ids (js "/[/]/g")
                    (js "[") (js "]/g") eq_refl H1) _ H3 H4). }
  apply (proj1 (proj2 (literal_cut_at_first_slash _ ids (js "/a/gi")
                         (js "a") (js "gi") eq_refl H2) H5)).
  by rewrite bool_decide_eq_true_2.
Defined.

(** X10.  An input made of white space only, the empty input among them,
    is answered with ["Invalid regular expression"]. *)
Theorem blank_input_rejected RegExp nanoid s :
  forallb is_space s = true ->
  parse RegExp nanoid s = Val (RError "Invalid regular expression").
Proof.
  intros Hs.
  assert (trim s = []) as Ht.
  { unfold trim. rewrite <- (app_nil_r s).
    by rewrite trimStart_spaces. }
  pose proof (parse_spec RegExp nanoid s) as H.
  pose proof (validate_spec RegExp (new_Parser s)) as Hv.
  cbn [regex new_Parser] in Hv. rewrite Ht in Hv.
  destruct (validate RegExp (new_Parser s)) as [[[|] p1]| |]; try done.
  - by destruct Hv as (? & _).
  - rewrite H. by destruct Hv as [[-> _] | [(_ & ? & _) | (? & _)]].
Qed.

Lemma blank_input_rejected_witness :
  forallb is_space [" "; "009"; "010"]%char = true /\
  parse accept_all ids [" "; "009"; "010"]%char
  = Val (RError "Invalid regular expression") /\
  parse accept_all ids [] = Val (RError "Invalid regular expression").
Proof.
  split; [by vm_compute|]. split.
  - apply (blank_input_rejected accept_all ids). by vm_compute.
  - apply (blank_input_rejected accept_all ids). by vm_compute.
Defined.

(** *** Quantifiers and group names *)

Lemma read_quantifier_none p p' :
  read_quantifier p = Val (None, p') -> p' = p.
Proof.
  unfold read_quantifier. unfold bind at 1. unfold reads at 1.
  assert (forall k (q0 : Quantifier),
             (_ <- advance k ;; ret (Some q0)) p = Val (None, p') -> p' = p)
    as Hadv.
  { intros k q0. unfold bind, ret.
    destruct (advance_cases k p) as [[? ->]|[? ->]]; congruence. }
  destruct (is_char "?" (cur 0 p)); [by apply Hadv|].
  destruct (is_char "*" (cur 0 p)); [by apply Hadv|].
  destruct (is_char "+" (cur 0 p)); [by apply Hadv|].
  destruct (is_char "{" (cur 0 p)); [|by intros [= <-]].
  unfold bind at 1. unfold reads at 1.
  destruct (eat digits [] 1 p) as [[|d min]|] eqn:Emin;
    try by intros [= <-].
  unfold bind at 1. unfold reads at 1.
  destruct (is_char "}" (cur (length (d :: min) + 1) p)) eqn:E1;
    [by apply Hadv|].
  unfold bind at 1. unfold reads at 1. unfold bind at 1. unfold reads at 1.
  destruct (truthy (eat (literal (js ",")) [] (length (d :: min) + 1) p)
            && is_char "}" (cur (length (d :: min) + 2) p)) eqn:E2;
    [by apply Hadv|].
  unfold bind at 1. unfold reads at 1. rewrite Emin.
  unfold bind at 1. unfold reads at 1. rewrite E1. by intros [= <-].
Qed.

Lemma eat_digits_none p k :
  match cur k p with Some d => is_digit d = false | None => True end ->
  eat digits [] k p = None.
Proof.
  unfold cur, eat, match_start.
  pose proof (lookup_drop (regex p) (index p + k) 0) as H.
  rewrite Nat.add_0_r in H. rewrite <- H.
  destruct (drop (index p + k) (regex p)) as [|d rest]; [done|].
  simpl. by intros ->.
Qed.

(** X11.  When [consumeQuantifier] recognises no quantifier it returns
    [false] and leaves the parser exactly as it was, cursor included; this
    is what happens at an opening brace that is not followed by a digit,
    which is then passed over as ordinary content. *)
Theorem unrecognised_quantifier_is_skipped p :
  (forall p', consumeQuantifier p = Val (false, p') -> p' = p) /\
  (is_char "{" (cur 0 p) = true ->
   match cur 1 p with Some d => is_digit d = false | None => True end ->
   consumeQuantifier p = Val (false, p)).
Proof.
  split.
  - intros p'. unfold consumeQuantifier. unfold bind at 1.
    destruct (read_quantifier p) as [[[q|] p1]| |] eqn:E; try done.
    + unfold bind at 1. unfold reads at 1. unfold bind at 1.
      destruct ((if is_char "?" (cur 0 p1)
                 then advance 1 ;;; ret (lazy q)
                 else ret q) p1) as [[q' p2]| |]; [|done..].
      unfold bind. by destruct (attach_quantifier q' p2) as [[[] p3]| |].
    + intros [= <-]. by apply read_quantifier_none.
  - intros Hb Hd. unfold consumeQuantifier, read_quantifier.
    unfold bind at 1. unfold bind at 1. unfold reads at 1.
    assert (forall x, x <> "{"%char -> is_char x (cur 0 p) = false) as Hne.
    { intros x Hx. unfold is_char in *.
      destruct (cur 0 p) as [c|]; [|done].
      apply Ascii.eqb_eq in Hb as ->. by apply Ascii.eqb_neq. }
    rewrite !Hne by done. rewrite Hb.
    unfold bind at 1. unfold reads at 1.
    by rewrite (eat_digits_none p 1 Hd).
Qed.

Lemma unrecognised_quantifier_is_skipped_witness :
  is_char "{" (cur 0 (set_index 4 (new_Parser (js "/(a){x}/")))) = true /\
  consumeQuantifier (set_index 4 (new_Parser (js "/(a){x}/")))
  = Val (false, set_index 4 (new_Parser (js "/(a){x}/"))).
Proof.
  split; [by vm_compute|].
  apply (proj2 (unrecognised_quantifier_is_skipped
                  (set_index 4 (new_Parser (js "/(a){x}/"))))); by vm_compute.
Defined.

Lemma last_occurrence_max (ep s : text) k k' :
  last_occurrence ep s k = Some k' ->
  forall j, k' < j <= k -> starts_with ep (drop j s) = false.
Proof.
  induction k as [|k IH]; simpl.
  - destruct (starts_with ep (drop 0 s)); [|done]. intros [= <-] j ?. lia.
  - destruct (starts_with ep (drop (S k) s)) eqn:E.
    + intros [= <-] j ?. lia.
    + intros H j Hj. destruct (decide (j = S k)) as [->|]; [done|].
      apply (IH H). lia.
Qed.

Lemma span_spec f (s : text) :
  forallb f (span f s) = true /\ span f s = take (length (span f s)) s.
Proof.
  induction s as [|c s [IH1 IH2]]; simpl; [done|].
  destruct (f c) eqn:E; simpl; [|done].
  rewrite E, IH1. split; [done|]. by rewrite <- IH2.
Qed.

(** X12.  The name that [eat] captures for a named group runs to the last
    [>] of the line, not to the first: the text after [?<] starts with the
    name, a [>] follows it, the name has no line terminator, and no [>]
    occurs further on before the next line terminator. *)
Theorem group_name_is_greedy p name :
  eat (literal (js "?<")) (js ">") 0 p = Some name ->
  let rest := drop (index p + 2) (regex p) in
  name = take (length name) rest /\
  rest !! length name = Some ">"%char /\
  forallb (fun c => negb (is_line_terminator c)) name = true /\
  forall j, length name < j ->
            j <= length (span (fun c => negb (is_line_terminator c)) rest) ->
            rest !! j <> Some ">"%char.
Proof.
  unfold eat, match_start. rewrite Nat.add_0_r. cbn [js list_ascii_of_string].
  destruct (starts_with _ (drop (index p) (regex p))); [|done].
  rewrite drop_drop. cbn [length]. intros H.
  set (rest := drop (index p + 2) (regex p)) in *.
  unfold match_upto in H. apply fmap_Some in H as (k & Hk & ->).
  pose proof (last_occurrence_spec _ _ _ _ Hk) as [Hle Hat].
  pose proof (last_occurrence_max _ _ _ _ Hk) as Hmax.
  destruct (span_spec (fun c => negb (is_line_terminator c)) rest) as [Hall Hpre].
  pose proof (span_length (fun c => negb (is_line_terminator c)) rest) as Hlen.
  set (line := span _ rest) in *.
  rewrite length_take, Nat.min_l by lia.
  split; [done|]. split; [|split].
  - pose proof (starts_with_lookup _ _ Hat 0 ">" eq_refl) as H.
    by rewrite lookup_drop, Nat.add_0_r in H.
  - rewrite forallb_forall in *. intros c Hc. apply Hall.
    rewrite Hpre. apply list_elem_of_In. apply list_elem_of_In in Hc.
    apply list_elem_of_lookup_1 in Hc as [i Hi].
    pose proof (lookup_lt_Some _ _ _ Hi) as Hi'. rewrite length_take in Hi'.
    rewrite lookup_take_lt in Hi by lia.
    eapply list_elem_of_lookup_2. rewrite lookup_take_lt; [exact Hi | lia].
  - intros j Hj Hjl Hgt. specialize (Hmax j ltac:(lia)).
    pose proof (lookup_drop rest j 0) as Hd.
    rewrite Nat.add_0_r, Hgt in Hd.
    destruct (drop j rest) as [|c tl]; [done|]. simpl in Hd, Hmax.
    injection Hd as ->. by rewrite Ascii.eqb_refl in Hmax.
Qed.

Lemma group_name_is_greedy_witness :
  eat (literal (js "?<")) (js ">") 0
      (set_index 2 (new_Parser (js "/(?<a>x)(?<b>y)/")))
  = Some (js "a>x)(?<b") /\
  drop 4 (js "/(?<a>x)(?<b>y)/") !! 10 <> Some ">"%char.
Proof.
  assert (eat (literal (js "?<")) (js ">") 0
              (set_index 2 (new_Parser (js "/(?<a>x)(?<b>y)/")))
          = Some (js "a>x)(?<b")) as H by (by vm_compute).
  split; [exact H|].
  apply (proj2 (proj2 (proj2 (group_name_is_greedy _ _ H))) 10);
    vm_compute; lia.
Defined.

Lemma span_stop f (ds tl : text) :
  forallb f ds = true ->
  match tl with c :: _ => f c = false | [] => True end ->
  span f (ds ++ tl) = ds.
Proof.
  intros Hds Htl. induction ds as [|d ds IH]; simpl in *.
  - destruct tl as [|c tl]; [done|]. simpl. by rewrite Htl.
  - apply andb_prop in Hds as [-> Hds]. by rewrite IH.
Qed.

Lemma cur_drop p k (l : text) :
  drop (index p) (regex p) = l -> cur k p = l !! k.
Proof. intros <-. unfold cur. by rewrite lookup_drop. Qed.

Lemma eat_digits_run p k (pre ds tl : text) :
  drop (index p) (regex p) = pre ++ ds ++ tl -> length pre = k ->
  ds <> [] -> forallb is_digit ds = true ->
  match tl with c :: _ => is_digit c = false | [] => True end ->
  eat digits [] k p = Some ds.
Proof.
  intros Hd <- Hne Hds Htl. unfold eat, match_start.
  rewrite <- drop_drop, Hd, drop_app_length.
  rewrite (span_stop _ _ _ Hds Htl). by destruct ds.
Qed.

Lemma advance_inside k p c1 c2 (l : text) :
  drop (index p) (regex p) = c1 :: c2 :: l ->
  advance k p = Val (true, set_index (index p + k) p).
Proof.
  intros Hd. destruct (advance_cases k p) as [[Hlast _]|[_ ->]]; [|done].
  apply (f_equal length) in Hd. rewrite length_drop in Hd. simpl in Hd. lia.
Qed.

(** Integers below [2^53] are doubles: [parseInt] is exact on the digit
    runs that denote them. *)
Lemma to_double_exact (v : N) : (v < 2 ^ 53)%N -> to_double v = Fin v.
Proof.
  intros Hv. unfold to_double.
  assert (N.size v <= 53)%N as Hs.
  { destruct (N.eq_dec v 0%N) as [->|Hne]; [done|].
    rewrite N.size_log2 by done.
    apply N.le_succ_l, N.log2_lt_pow2; lia. }
  apply N.leb_le in Hs. by rewrite Hs.
Qed.

(** Beyond [2^53] it rounds, as the double does, and beyond the largest
    double it is [Infinity]. *)
Lemma parseInt_rounds :
  parseInt (js "9007199254740993") = Fin 9007199254740992 /\
  parseInt (js "9007199254740995") = Fin 9007199254740996 /\
  parseInt (js "100000000000000000000000") = Fin 99999999999999991611392 /\
  parseInt (js "1" ++ repeat "0"%char 309) = Infinity.
Proof. repeat split; by vm_compute. Qed.

(** X13.  Read at the cursor, an opening brace, a digit run [n] and a
    closing brace give the custom greedy quantifier whose two bounds are
    both [parseInt(n)], the double nearest to [n] (which is [n] itself
    below [2^53]), and with a comma before the closing brace the quantifier
    from [parseInt(n)] to [Infinity]; the cursor is moved past the closing
    brace.  The form with two digit runs is never recognised: no
    quantifier is produced and the parser is left as it was. *)
Theorem braces_at_cursor p (ds rest : text) :
  ds <> [] -> forallb is_digit ds = true ->
  (drop (index p) (regex p) = "{"%char :: ds ++ "}"%char :: rest ->
   read_quantifier p
   = Val (Some (custom (parseInt ds) (parseInt ds)),
          set_index (index p + (length ds + 2)) p)) /\
  (drop (index p) (regex p) = "{"%char :: ds ++ ","%char :: "}"%char :: rest ->
   read_quantifier p
   = Val (Some (custom (parseInt ds) Infinity),
          set_index (index p + (length ds + 3)) p)) /\
  (forall ds',
      ds' <> [] -> forallb is_digit ds' = true ->
      drop (index p) (regex p)
      = "{"%char :: ds ++ ","%char :: ds' ++ "}"%char :: rest ->
      read_quantifier p = Val (None, p)) /\
  ((decimal_value ds < 2 ^ 53)%N -> parseInt ds = Fin (decimal_value ds)).
Proof.
  intros Hne Hds.
  cut ((drop (index p) (regex p) = "{"%char :: ds ++ "}"%char :: rest ->
        read_quantifier p
        = Val (Some (custom (parseInt ds) (parseInt ds)),
               set_index (index p + (length ds + 2)) p)) /\
       (drop (index p) (regex p)
        = "{"%char :: ds ++ ","%char :: "}"%char :: rest ->
        read_quantifier p
        = Val (Some (custom (parseInt ds) Infinity),
               set_index (index p + (length ds + 3)) p)) /\
       (forall ds',
           ds' <> [] -> forallb is_digit ds' = true ->
           drop (index p) (regex p)
           = "{"%char :: ds ++ ","%char :: ds' ++ "}"%char :: rest ->
           read_quantifier p = Val (None, p))).
  { intros (H1 & H2 & H3). repeat split; try done. apply to_double_exact. }
  assert (forall tl, drop (index p) (regex p) = "{"%char :: ds ++ tl ->
            is_char "?" (cur 0 p) = false /\ is_char "*" (cur 0 p) = false /\
            is_char "+" (cur 0 p) = false /\ is_char "{" (cur 0 p) = true)
    as Hhead.
  { intros tl Hd. by rewrite (cur_drop p 0 _ Hd). }
  assert (forall tl c, drop (index p) (regex p) = "{"%char :: ds ++ c :: tl ->
            cur (length ds + 1) p = Some c) as Hnext.
  { intros tl c Hd. rewrite (cur_drop p _ _ Hd).
    replace (length ds + 1) with (S (length ds)) by lia. simpl.
    by rewrite list_lookup_middle. }
  assert (forall tl c l, drop (index p) (regex p) = "{"%char :: ds ++ c :: l :: tl ->
            cur (length ds + 2) p = Some l) as Hnext2.
  { intros tl c l Hd. rewrite (cur_drop p _ _ Hd).
    replace (length ds + 2) with (S (length (ds ++ [c]))).
    2:{ rewrite length_app. simpl. lia. }
    simpl.
    replace (ds ++ c :: l :: tl) with ((ds ++ [c]) ++ l :: tl)
      by (by rewrite <- app_assoc).
    by rewrite list_lookup_middle. }
  assert (forall tl c, is_digit c = false ->
            drop (index p) (regex p) = "{"%char :: ds ++ c :: tl ->
            eat digits [] 1 p = Some ds) as Hmin.
  { intros tl c Hc Hd.
    by apply (eat_digits_run p 1 ["{"%char] ds (c :: tl)). }
  assert (forall k tl, drop (index p) (regex p) = "{"%char :: ds ++ tl ->
            advance k p = Val (true, set_index (index p + k) p)) as Hadv.
  { intros k tl Hd. destruct ds as [|d ds']; [done|].
    by apply (advance_inside k p _ _ _ Hd). }
  assert (forall tl B k (q : B),
             drop (index p) (regex p) = "{"%char :: ds ++ tl ->
             (advance k ;;; ret q) p = Val (q, set_index (index p + k) p))
    as Hjump.
  { intros tl B k q Hd. unfold bind, ret. by rewrite (Hadv _ _ Hd). }
  unfold read_quantifier.
  split; [|split].
  - intros Hd. destruct (Hhead _ Hd) as (H1 & H2 & H3 & H4).
    unfold bind at 1. unfold reads at 1.
    rewrite H1, H2, H3, H4. cbv iota.
    unfold bind at 1. unfold reads at 1. rewrite (Hmin _ "}"%char eq_refl Hd).
    destruct ds as [|d0 ds0] eqn:Eds; [done|]. cbv iota. rewrite <- Eds in *.
    unfold bind at 1. unfold reads at 1. rewrite (Hnext _ _ Hd).
    change (is_char "}" (Some "}"%char)) with true. cbv iota.
    by apply (Hjump _ _ _ _ Hd).
  - intros Hd. destruct (Hhead _ Hd) as (H1 & H2 & H3 & H4).
    unfold bind at 1. unfold reads at 1.
    rewrite H1, H2, H3, H4. cbv iota.
    unfold bind at 1. unfold reads at 1. rewrite (Hmin _ ","%char eq_refl Hd).
    destruct ds as [|d0 ds0] eqn:Eds; [done|]. cbv iota. rewrite <- Eds in *.
    unfold bind at 1. unfold reads at 1. rewrite (Hnext _ _ Hd).
    change (is_char "}" (Some ","%char)) with false. cbv iota.
    unfold bind at 1. unfold reads at 1. unfold bind at 1. unfold reads at 1.
    rewrite (Hnext2 _ _ _ Hd).
    assert (truthy (eat (literal (js ",")) [] (length ds + 1) p) = true) as ->.
    { unfold eat, match_start.
      replace (index p + (length ds + 1)) with (index p + length ("{"%char :: ds))
        by (simpl; lia).
      rewrite <- drop_drop, Hd.
      change ("{"%char :: ds ++ ","%char :: "}"%char :: rest)
        with (("{"%char :: ds) ++ ","%char :: "}"%char :: rest).
      by rewrite drop_app_length. }
    change (true && is_char "}" (Some "}"%char)) with true. cbv iota.
    by apply (Hjump _ _ _ _ Hd).
  - intros ds' Hne' Hds' Hd. destruct (Hhead _ Hd) as (H1 & H2 & H3 & H4).
    unfold bind at 1. unfold reads at 1.
    rewrite H1, H2, H3, H4. cbv iota.
    unfold bind at 1. unfold reads at 1. rewrite (Hmin _ ","%char eq_refl Hd).
    destruct ds as [|d0 ds0] eqn:Eds; [done|]. cbv iota. rewrite <- Eds in *.
    unfold bind at 1. unfold reads at 1. rewrite (Hnext _ _ Hd).
    change (is_char "}" (Some ","%char)) with false. cbv iota.
    unfold bind at 1. unfold reads at 1. unfold bind at 1. unfold reads at 1.
    destruct ds' as [|d' ds1]; [done|].
    change ("{"%char :: ds ++ ","%char :: (d' :: ds1) ++ "}"%char :: rest)
      with ("{"%char :: ds ++ ","%char :: d' :: (ds1 ++ "}"%char :: rest)) in Hd.
    rewrite (Hnext2 _ _ _ Hd).
    assert (is_char "}" (Some d') = false) as ->.
    { simpl in Hds'. apply andb_prop in Hds' as [Hd' _].
      unfold is_char. apply Ascii.eqb_neq. by intros ->. }
    rewrite andb_false_r. cbv iota.
    unfold bind at 1. unfold reads at 1. rewrite (Hmin _ ","%char eq_refl Hd).
    destruct ds as [|d2 ds2] eqn:Eds2; [done|]. cbv iota. rewrite <- Eds2 in *.
    unfold bind at 1. unfold reads at 1. rewrite (Hnext _ _ Hd).
    by change (is_char "}" (Some ","%char)) with false.
Qed.

Lemma braces_at_cursor_witness :
  drop 4 (js "/(a){12,34}/") = "{"%char :: js "12" ++ ","%char :: js "34"
                               ++ "}"%char :: js "/" /\
  read_quantifier (set_index 4 (new_Parser (js "/(a){12,34}/")))
  = Val (None, set_index 4 (new_Parser (js "/(a){12,34}/"))) /\
  read_quantifier (set_index 4 (new_Parser (js "/(a){12}/")))
  = Val (Some (fixed q_custom 12 (Fin 12)),
         set_index 8 (new_Parser (js "/(a){12}/"))) /\
  read_quantifier (set_index 4 (new_Parser (js "/(a){9007199254740993}/")))
  = Val (Some (fixed q_custom 9007199254740992 (Fin 9007199254740992)),
         set_index 22 (new_Parser (js "/(a){9007199254740993}/"))).
Proof.
  split; [by vm_compute|]. split; [|split].
  - apply (proj1 (proj2 (proj2 (braces_at_cursor
                                  (set_index 4 (new_Parser (js "/(a){12,34}/")))
                                  (js "12") (js "/") ltac:(done) eq_refl)))
             (js "34")); by vm_compute.
  - apply (proj1 (braces_at_cursor
                    (set_index 4 (new_Parser (js "/(a){12}/")))
                    (js "12") (js "/") ltac:(done) eq_refl)).
    by vm_compute.
  - assert (parseInt (js "9007199254740993") = Fin 9007199254740992) as E
      by (by vm_compute).
    unfold fixed. rewrite <- E.
    apply (proj1 (braces_at_cursor
                    (set_index 4 (new_Parser (js "/(a){9007199254740993}/")))
                    (js "9007199254740993") (js "/") ltac:(done) eq_refl)).
    by vm_compute.
Defined.

(** *** Flags *)

Lemma flagDict_not_hasIndices c k :
  c ∈ js "gimsuy" -> flagDict c = Some k -> k <> hasIndices.
Proof.
  intros Hc.
  repeat (apply elem_of_cons in Hc as [->|Hc]);
    try (by apply elem_of_nil in Hc); by intros [= <-].
Qed.

(** X14.  No returned tree has the flag [hasIndices]: the letter [d] never
    passes validation, so every flag node of a tree is one of the six
    other kinds, and a tree has at most six flag nodes. *)
Theorem hasIndices_never_returned RegExp nanoid s t :
  parse RegExp nanoid s = Val (ROk t) ->
  Forall (fun f => exists k, f_kind f = Some k /\ k <> hasIndices) (flags t) /\
  length (flags t) <= 6.
Proof.
  intros Hp. pose proof (parse_spec RegExp nanoid s) as H.
  pose proof (validate_spec RegExp (new_Parser s)) as Hs.
  destruct (validate RegExp (new_Parser s)) as [[[|] p1]| |]; try done;
    [|congruence].
  destruct Hs as (_ & _ & Hall & _ & ->).
  cbn [regex new_Parser flagSet set_flagSet] in H, Hall.
  rewrite set_add_fold_nil in H.
  destruct H as [H | (t' & _ & H & Hf & _)]; [congruence|].
  rewrite Hp in H. injection H as <-. rewrite Hf.
  assert (forall c, c ∈ first_occurrences (flag_letters (trim s)) ->
                    c ∈ js "gimsuy") as Hletters.
  { intros c Hc. apply (proj1 (first_occurrences_elem _ _)) in Hc.
    apply flag_test_cases.
    rewrite forallb_forall in Hall. apply Hall. by apply list_elem_of_In. }
  split.
  - apply Forall_forall. intros f Hin.
    change (f ∈ (fun flag => {| f_kind := flagDict flag |})
                  <$> first_occurrences (flag_letters (trim s))) in Hin.
    apply list_elem_of_fmap in Hin as (c & -> & Hc). simpl.
    destruct (flagDict_defined c (Hletters c Hc)) as [k Hk].
    exists k. split; [done|]. by eapply flagDict_not_hasIndices; eauto.
  - rewrite length_map.
    change 6 with (length (js "gimsuy")).
    apply submseteq_length, NoDup_submseteq;
      [apply first_occurrences_NoDup | exact Hletters].
Qed.

Lemma hasIndices_never_returned_witness :
  parse accept_all ids (js "/(a)/yg")
  = Val (ROk {| body := [Group "0" (capturing "1") [] None];
                flags := [mkFlag (Some sticky); mkFlag (Some global)] |}) /\
  length [mkFlag (Some sticky); mkFlag (Some global)] <= 6.
Proof.
  assert (parse accept_all ids (js "/(a)/yg")
          = Val (ROk {| body := [Group "0" (capturing "1") [] None];
                        flags := [mkFlag (Some sticky); mkFlag (Some global)] |}))
    as H by (by vm_compute).
  split; [exact H|].
  exact (proj2 (hasIndices_never_returned accept_all ids _ _ H)).
Defined.
